(** * shell-util: quoting, command templates, tag-function chains, actions

    A shallow embedding of the TypeScript sources [mod.ts] and [action.ts]
    together with the properties their specification states about them.

    JavaScript strings are modelled by [string]; the code only ever
    compares characters with ASCII ones, so a code unit is an [ascii].

    The definitions come first: the sources module by module, the shell's
    quoting grammar, the specification's own wording of the rules, and sample
    inputs.  The properties follow. *)

From Stdlib Require Import String Ascii List Bool Arith Lia ZArith QArith.
From Equations Require Import Equations.
Import ListNotations.

Local Close Scope Q_scope.
Local Open Scope list_scope.
Local Open Scope string_scope.

(** ** JavaScript string primitives used by the sources *)

Module Js.

(** The two quote characters.  ['] is written directly; the double quote is
    given by its code. *)
Definition squote : ascii := "'"%char.
Definition dquote : ascii := ascii_of_nat 34.
Definition space : ascii := " "%char.

Definition SQ : string := String squote EmptyString.
Definition DQ : string := String dquote EmptyString.

(** [!s] on a string: only the empty string is falsy. *)
Definition not_ (s : string) : bool :=
  match s with EmptyString => true | String _ _ => false end.

(** [s[0] === c] guarded by [s.length > 0]. *)
Definition first_is (c : ascii) (s : string) : bool :=
  match s with
  | EmptyString => false
  | String a _ => Ascii.eqb a c
  end.

(** [s[s.length - 1] === c] guarded by [s.length > 0]. *)
Fixpoint last_is (c : ascii) (s : string) : bool :=
  match s with
  | EmptyString => false
  | String a EmptyString => Ascii.eqb a c
  | String _ r => last_is c r
  end.

(** [s.substring(1)]. *)
Definition substring_from_1 (s : string) : string :=
  match s with EmptyString => EmptyString | String _ r => r end.

(** [s.substring(0, s.length - 1)]. *)
Fixpoint substring_to_last (s : string) : string :=
  match s with
  | EmptyString => EmptyString
  | String _ EmptyString => EmptyString
  | String a r => String a (substring_to_last r)
  end.

(** [xs.join(sep)] on an array of strings. *)
Fixpoint join (sep : string) (xs : list string) : string :=
  match xs with
  | [] => EmptyString
  | [x] => x
  | x :: rest => x ++ sep ++ join sep rest
  end.

End Js.

(** ** mod.ts: the quoting engine *)

Module Mod.
Import Js.

(** The character class [[A-Za-z0-9,:=_\.\/\-]]. *)
Definition safeShellChar (c : ascii) : bool :=
  let n := nat_of_ascii c in
  (Nat.leb 65 n && Nat.leb n 90) || (Nat.leb 97 n && Nat.leb n 122) ||
  (Nat.leb 48 n && Nat.leb n 57) ||
  Ascii.eqb c ","%char || Ascii.eqb c ":"%char || Ascii.eqb c "="%char ||
  Ascii.eqb c "_"%char || Ascii.eqb c "."%char || Ascii.eqb c "/"%char ||
  Ascii.eqb c "-"%char.

Fixpoint all_safe (s : string) : bool :=
  match s with
  | EmptyString => true
  | String c r => safeShellChar c && all_safe r
  end.

(** [safeShellCharsRE.test(s)] for [/^[A-Za-z0-9,:=_\.\/\-]+$/]: the class
    is matched greedily from position 0, at least once, up to the end. *)
Definition safeShellCharsRE_test (s : string) : bool :=
  match s with
  | EmptyString => false
  | String _ _ => all_safe s
  end.

(** The longest run of quotes at the start of [s], and the text after it. *)
Fixpoint quote_run (s : string) : string * string :=
  match s with
  | EmptyString => (EmptyString, EmptyString)
  | String c r =>
      if Ascii.eqb c squote
      then let (m, rest) := quote_run r in (String c m, rest)
      else (EmptyString, s)
  end.

(** One attempt of [/'+/] at the start of [s]: the greedy match and the
    text that follows it, or [None] when [s] does not start with a quote. *)
Definition singleQuoteSpanRE_match (s : string) : option (string * string) :=
  match quote_run s with
  | (EmptyString, _) => None
  | (m, rest) => Some (m, rest)
  end.

Lemma quote_run_length (s : string) :
  String.length (fst (quote_run s)) + String.length (snd (quote_run s))
  = String.length s.
Proof.
  induction s as [|c r IH]; simpl; [reflexivity|].
  destruct (Ascii.eqb c squote); simpl; [|reflexivity].
  destruct (quote_run r) as [m rest]; simpl in *. lia.
Qed.

Lemma singleQuoteSpanRE_match_shorter (s m rest : string) :
  singleQuoteSpanRE_match s = Some (m, rest) ->
  String.length rest < String.length s.
Proof.
  unfold singleQuoteSpanRE_match. intros H.
  pose proof (quote_run_length s) as L.
  destruct (quote_run s) as [m' rest']; simpl in L.
  destruct m' as [|a m'']; [discriminate|].
  inversion H; subst. simpl in L. lia.
Qed.

Definition inspect {A : Type} (x : A) : { y : A | x = y } :=
  exist _ x eq_refl.

(** [s.replace(singleQuoteSpanRE, fn)] with the global flag: scan from the
    left; where the pattern matches, emit [fn m] and go on after the match,
    otherwise copy one character. *)
Equations? replace_singleQuoteSpan (fn : string -> string) (s : string)
  : string by wf (String.length s) lt :=
  replace_singleQuoteSpan fn EmptyString := EmptyString;
  replace_singleQuoteSpan fn (String c r)
    with inspect (singleQuoteSpanRE_match (String c r)) => {
    | exist _ (Some (m, rest)) Hm := fn m ++ replace_singleQuoteSpan fn rest;
    | exist _ None _ := String c (replace_singleQuoteSpan fn r) }.
Proof.
  apply singleQuoteSpanRE_match_shorter in Hm. exact Hm.
Qed.

(** [s.replace(/^''/, "")]. *)
Definition replace_leading_pair (s : string) : string :=
  match s with
  | String a (String b r) =>
      if Ascii.eqb a squote && Ascii.eqb b squote then r else s
  | _ => s
  end.

(** [s.replace(/''$/, "")]: the first position from the left where two
    quotes are followed by the end of input. *)
Fixpoint replace_trailing_pair (s : string) : string :=
  match s with
  | EmptyString => EmptyString
  | String a r =>
      if String.eqb s (SQ ++ SQ) then EmptyString
      else String a (replace_trailing_pair r)
  end.

(** The callback [(m) => `'"${m}"'`]. *)
Definition requote_span (m : string) : string :=
  SQ ++ DQ ++ m ++ DQ ++ SQ.

Definition quoteString (s : string) : string :=
  if not_ s then SQ ++ SQ
  else if safeShellCharsRE_test s then s
  else
    let s1 := SQ ++ replace_singleQuoteSpan requote_span s ++ SQ in
    let s2 := replace_leading_pair s1 in
    let s3 := replace_trailing_pair s2 in
    s3.

(** *** Results, errors and completions *)

(** The interfaces [ShellResult] (text form) and [ShellResultBinary]. *)
Record ShellResult : Type := {
  code : Z;
  stdout : string;
  stderr : string;
  cmd : string;
  elapsedMilliseconds : Z;
  trimmed : bool
}.

Record ShellResultBinary : Type := {
  bin_code : Z;
  bin_stdout : list Byte.byte;
  bin_stderr : list Byte.byte;
  bin_cmd : string;
  bin_elapsedMilliseconds : Z
}.

(** What the sources throw: the built-in [TypeError], the classes
    [SkipError], [TimeoutError] and [ShellError] of action.ts, and any other
    [Error] of a caller. *)
Inductive JsError : Type :=
| TypeError
| SkipError
| TimeoutError
| ShellError (result : ShellResult)
| Error (message : string).

(** A call either returns a value or throws. *)
Inductive completion (A : Type) : Type :=
| Return (a : A)
| Throw (e : JsError).
Arguments Return {A} a.
Arguments Throw {A} e.

(** *** The command template compiler *)

(** An interpolated value: a scalar, or an array of scalars.  [V] is the
    type [ShellArgumentType]. *)
Inductive Argument (V : Type) : Type :=
| Scalar (v : V)
| ArrayArg (vs : list V).
Arguments Scalar {V} v.
Arguments ArrayArg {V} vs.

(** A value that may be [undefined]; string concatenation renders
    [undefined] as the text [undefined]. *)
Definition text_of (v : option string) : string :=
  match v with Some s => s | None => "undefined" end.

(** The trailing loop [for (++i; i < pieces.length; i++) result += pieces[i]]. *)
Fixpoint quote_tail (result : option string) (rest : list string)
  : option string :=
  match rest with
  | [] => result
  | p :: rest' => quote_tail (Some (text_of result ++ p)) rest'
  end.

Section Quote.
Context {V : Type}.
(** The coercion [String(v)]. *)
Variable String_ : V -> string.

(** The main loop of [quote] at index [i], the remaining arguments being
    [args[i..]].  Reading [pieces[i + 1]] out of range yields [undefined];
    taking [.length] of [undefined] throws. *)
Fixpoint quote_loop (pieces : list string) (i : nat) (result : option string)
  (args : list (Argument V)) : completion (option string) :=
  match args with
  | [] => Return (quote_tail result (skipn (S i) pieces))
  | a :: args' =>
      let '(result, isEmptyArrayArg) :=
        match a with
        | ArrayArg vs =>
            let aarg := join " " (List.map (fun v => quoteString (String_ v)) vs) in
            if Nat.eqb (String.length aarg) 0
            then (result, true)
            else (Some (text_of result ++ aarg), false)
        | Scalar v => (Some (text_of result ++ quoteString (String_ v)), false)
        end in
      let p := nth_error pieces (S i) in
      if isEmptyArrayArg then
        match p with
        | None => Throw TypeError
        | Some p =>
            if Nat.ltb 0 (String.length p) && first_is space p then
              quote_loop pieces (S i)
                (Some (text_of result ++ substring_from_1 p)) args'
            else
              match result with
              | None => Throw TypeError
              | Some r =>
                  if Nat.ltb 0 (String.length r) && last_is space r then
                    quote_loop pieces (S i)
                      (Some (substring_to_last r ++ p)) args'
                  else
                    quote_loop pieces (S i) (Some (r ++ p)) args'
              end
        end
      else
        quote_loop pieces (S i) (Some (text_of result ++ text_of p)) args'
  end.

Definition quote (pieces : list string) (args : list (Argument V))
  : completion (option string) :=
  quote_loop pieces 0 (nth_error pieces 0) args.

End Quote.

End Mod.

(** ** Effects

    Callbacks, executors and tag functions act on the world outside (the
    console, subprocesses) and may throw.  A computation takes the world and
    gives the world afterwards together with its completion.  An [async]
    function that is awaited at once is such a computation: its rejection is
    a throw at the [await]. *)

Module Effects.
Import Mod.

Definition M (W A : Type) : Type := W -> W * completion A.

Definition ret {W A : Type} (a : A) : M W A := fun w => (w, Return a).

Definition throw {W A : Type} (e : JsError) : M W A := fun w => (w, Throw e).

Definition bind {W A B : Type} (m : M W A) (k : A -> M W B) : M W B :=
  fun w =>
    match m w with
    | (w', Return a) => k a w'
    | (w', Throw e) => (w', Throw e)
    end.

(** [try { body } finally { fin }]: [fin] runs whatever [body] did; what
    [body] returned or threw is kept unless [fin] itself throws. *)
Definition try_finally {W A : Type} (body : M W A) (fin : M W unit) : M W A :=
  fun w =>
    let (w1, r) := body w in
    match fin w1 with
    | (w2, Return _) => (w2, r)
    | (w2, Throw e) => (w2, Throw e)
    end.

End Effects.

Declare Scope effects_scope.
Delimit Scope effects_scope with effects.
Notation "x <- m ;; k" := (Effects.bind m (fun x => k))
  (at level 61, m at next level, right associativity) : effects_scope.
Notation "m ;;; k" := (Effects.bind m (fun _ => k))
  (at level 61, right associativity) : effects_scope.

(** ** mod.ts: composable tag functions *)

Module Tag.
Import Js Mod Effects.
Local Open Scope effects_scope.

(** A tagged template literal hands its tag function one more literal
    fragment than it has values: the first fragment, and after every value the
    fragment that follows it. *)
Record Template (V : Type) : Type := {
  first_piece : string;
  gaps : list (Argument V * string)
}.
Arguments first_piece {V} _.
Arguments gaps {V} _.

Definition pieces_of {V : Type} (t : Template V) : list string :=
  first_piece t :: List.map snd (gaps t).

Definition args_of {V : Type} (t : Template V) : list (Argument V) :=
  List.map fst (gaps t).

(** The interface [MapParameters<T, U>]; [pre] and [finalize] are optional. *)
Record MapParameters (W T U : Type) : Type := {
  pre : option (string -> M W string);
  post : T -> M W U;
  finalize : option (M W unit)
}.
Arguments pre {W T U} _.
Arguments post {W T U} _.
Arguments finalize {W T U} _.

(** [map] given a bare function: [{ post: arg }]. *)
Definition post_only {W T U : Type} (f : T -> M W U) : MapParameters W T U :=
  {| pre := None; post := f; finalize := None |}.

(** What [wrapTagFunction] closes over: the tag function itself, the
    executor behind it, and the finalizers of the layers below. *)
Record TagFunction (W V T : Type) : Type := {
  call : Template V -> M W T;
  exec_of : string -> M W T;
  finalizers_of : list (option (M W unit))
}.
Arguments call {W V T} _.
Arguments exec_of {W V T} _.
Arguments finalizers_of {W V T} _.

Section TagFunctions.
Context {W V : Type}.
Variable String_ : V -> string.

(** [quote(...args)] inside a tag function.  On a template literal it
    returns a string; the other two outcomes are kept as throws. *)
Definition quote_template (t : Template V) : M W string :=
  match quote String_ (pieces_of t) (args_of t) with
  | Return (Some q) => ret q
  | Return None => throw TypeError
  | Throw e => throw e
  end.

(** [p.pre ? p.pre(cmd) : cmd]. *)
Definition apply_pre {T U : Type} (p : MapParameters W T U) (cmd : string)
  : M W string :=
  match pre p with
  | Some g => g cmd
  | None => ret cmd
  end.

(** [f?.()]. *)
Definition call_optional (f : option (M W unit)) : M W unit :=
  match f with
  | Some g => g
  | None => ret tt
  end.

(** [for (const f of finalizers) f?.()]. *)
Fixpoint run_finalizers (fs : list (option (M W unit))) : M W unit :=
  match fs with
  | [] => ret tt
  | f :: rest => call_optional f ;;; run_finalizers rest
  end.

Definition wrapTagFunction {T : Type} (f : Template V -> M W T)
  (exec : string -> M W T) (finalizers : list (option (M W unit)))
  : TagFunction W V T :=
  {| call := f; exec_of := exec; finalizers_of := finalizers |}.

(** [ff.map = (arg) => ...] of [wrapTagFunction(f, exec, finalizers)]. *)
Definition map {T U : Type} (ff : TagFunction W V T) (p : MapParameters W T U)
  : TagFunction W V U :=
  let nestedExec := fun cmd : string =>
    c <- apply_pre p cmd ;; r <- exec_of ff c ;; post p r in
  wrapTagFunction
    (fun t =>
       try_finally
         (q <- quote_template t ;;
          c <- apply_pre p q ;; r <- exec_of ff c ;; post p r)
         (run_finalizers (finalizers_of ff) ;;; call_optional (finalize p)))
    nestedExec
    (finalizers_of ff ++ [finalize p])%list.

(** The tag function [shOpt] starts from, for an executor [exec]. *)
Definition plain {T : Type} (exec : string -> M W T) : TagFunction W V T :=
  wrapTagFunction (fun t => q <- quote_template t ;; exec q) exec [].

End TagFunctions.

(** A tag function as built in the sources: a plain one, wrapped by any
    number of [.map] calls. *)
Inductive Chain (W V : Type) : Type -> Type :=
| Plain {T : Type} (exec : string -> M W T) : Chain W V T
| Mapped {T U : Type} (c : Chain W V T) (p : MapParameters W T U) : Chain W V U.
Arguments Plain {W V T} exec.
Arguments Mapped {W V T U} c p.

Fixpoint build {W V T : Type} (String_ : V -> string) (c : Chain W V T)
  : TagFunction W V T :=
  match c with
  | Plain exec => plain String_ exec
  | Mapped c' p => map String_ (build String_ c') p
  end.

End Tag.

(** ** mod.ts: the executors

    A subprocess is known by what is done to it: the world of an executor is
    the list of the operations on subprocesses so far, oldest first.  What
    the host gives back (the clock, the inherited environment, the encoding
    of text, the output of a subprocess) is taken from a [Host], and so is
    the failure of an operation (no such shell, a broken pipe): an operation
    the host refuses is recorded like any other and throws the host's
    error. *)

Module Exec.
Import Js Mod Effects Tag.
Local Open Scope effects_scope.

Definition Env : Type := list (string * string).

Inductive Stdin : Type :=
| StdinText (s : string)
| StdinBytes (b : list Byte.byte).

(** The interface [ShellOptions]; every field is optional. *)
Record ShellOptions : Type := {
  shell : option string;
  shellArgs : option (list string);
  trim : option bool;
  env : option Env;
  stdin : option Stdin
}.

(** The operations on a subprocess: [spawn] (or [Deno.run]) with the shell,
    its arguments and the environment; a write of the whole buffer to the
    input stream; [stdin.close()]; [output()] of a [Deno.Command] child; and,
    of the older [Deno.run] process, [status()], [output()],
    [stderrOutput()] and [close()]. *)
Inductive ProcEvent : Type :=
| Spawn (shell : string) (args : list string) (env : Env)
| StdinWrite (buf : list Byte.byte)
| StdinClose
| Output
| Status
| StdoutRead
| StderrRead
| Close.

Record Exit : Type := {
  exit_code : Z;
  exit_stdout : list Byte.byte;
  exit_stderr : list Byte.byte
}.

Record Host : Type := {
  host_env : Env;
  now : list ProcEvent -> Z;
  encode : string -> list Byte.byte;
  decode : list Byte.byte -> string;
  trim_text : string -> string;
  subprocess : list ProcEvent -> Exit;
  refuses : list ProcEvent -> ProcEvent -> option JsError
}.

Definition Proc : Type := list ProcEvent.

(** [a ?? b]. *)
Definition nullish {A : Type} (a : option A) (b : A) : A :=
  match a with Some x => x | None => b end.

Definition act (e : ProcEvent) : M Proc unit :=
  fun w => ((w ++ [e])%list, Return tt).

(** An operation that the host may refuse, given the ones before it. *)
Definition attempt (h : Host) (e : ProcEvent) : M Proc unit :=
  fun w =>
    ((w ++ [e])%list,
     match refuses h w e with
     | Some err => Throw err
     | None => Return tt
     end).

(** A host that refuses nothing. *)
Definition obliging (h : Host) : Prop :=
  forall (w : Proc) (e : ProcEvent), refuses h w e = None.

Definition ask {A : Type} (f : Proc -> A) : M Proc A :=
  fun w => (w, Return (f w)).

Definition stdin_bytes (h : Host) (payload : Stdin) : list Byte.byte :=
  match payload with
  | StdinText s => encode h s
  | StdinBytes b => b
  end.

(** [execOpt(opt)]: spawn; write the standard input if there is one; close
    the input stream; collect the output.  Each of the four may throw or
    reject, and nothing here catches it. *)
Definition execOpt (h : Host) (opt : ShellOptions) (cmd : string)
  : M Proc ShellResultBinary :=
  t0 <- ask (now h) ;;
  attempt h (Spawn (nullish (shell opt) "/bin/bash")
               (nullish (shellArgs opt) ["-c"] ++ [cmd])%list
               (nullish (env opt) (host_env h))) ;;;
  match stdin opt with
  | Some payload => attempt h (StdinWrite (stdin_bytes h payload))
  | None => ret tt
  end ;;;
  attempt h StdinClose ;;;
  attempt h Output ;;;
  output <- ask (subprocess h) ;;
  t1 <- ask (now h) ;;
  ret {| bin_code := exit_code output;
         bin_stdout := exit_stdout output;
         bin_stderr := exit_stderr output;
         bin_cmd := cmd;
         bin_elapsedMilliseconds := (t1 - t0)%Z |}.

(** [trimMaybe]. *)
Definition trimMaybe (h : Host) (v : string) (shouldTrim : bool) : string :=
  if shouldTrim then trim_text h v else v.

Definition binaryToText (h : Host) (opt : ShellOptions)
  (result : ShellResultBinary) : ShellResult :=
  let shouldTrim := nullish (trim opt) true in
  {| code := bin_code result;
     stdout := trimMaybe h (decode h (bin_stdout result)) shouldTrim;
     stderr := trimMaybe h (decode h (bin_stderr result)) shouldTrim;
     cmd := bin_cmd result;
     elapsedMilliseconds := bin_elapsedMilliseconds result;
     trimmed := shouldTrim |}.

Section ShOpt.
Context {V : Type}.
Variable String_ : V -> string.

(** [shOpt(opt, "binary")]. *)
Definition shOpt_binary (h : Host) (opt : ShellOptions)
  : TagFunction Proc V ShellResultBinary :=
  plain String_ (execOpt h opt).

(** [shOpt(opt)] and [shOpt(opt, "utf-8")]. *)
Definition shOpt (h : Host) (opt : ShellOptions)
  : TagFunction Proc V ShellResult :=
  plain String_ (fun cmd => r <- execOpt h opt cmd ;; ret (binaryToText h opt r)).

(** [sh = shOpt({})]. *)
Definition sh (h : Host) : TagFunction Proc V ShellResult :=
  shOpt h {| shell := None; shellArgs := None; trim := None; env := None;
             stdin := None |}.

End ShOpt.

(** The body of the tag function of [shOptBin(opt)], the executor on
    [Deno.run], once [quote] has given the command: run; wait for the status
    and both outputs; then write the standard input if there is one; close
    the subprocess.  These are the operations in the order of the program,
    each taken to complete; a subprocess that waits for its input keeps the
    first wait from completing, and the operations after it are then never
    reached. *)
Definition shOptBin (h : Host) (opt : ShellOptions) (cmd : string)
  : M Proc ShellResultBinary :=
  t0 <- ask (now h) ;;
  act (Spawn (nullish (shell opt) "/bin/bash")
         (nullish (shellArgs opt) ["-c"] ++ [cmd])%list
         (nullish (env opt) (host_env h))) ;;;
  act Status ;;;
  act StdoutRead ;;;
  act StderrRead ;;;
  output <- ask (subprocess h) ;;
  match stdin opt with
  | Some payload => act (StdinWrite (stdin_bytes h payload))
  | None => ret tt
  end ;;;
  act Close ;;;
  t1 <- ask (now h) ;;
  ret {| bin_code := exit_code output;
         bin_stdout := exit_stdout output;
         bin_stderr := exit_stderr output;
         bin_cmd := cmd;
         bin_elapsedMilliseconds := (t1 - t0)%Z |}.

End Exec.

(** ** action.ts *)

Module Action.
Import Js Mod.

Inductive Verbosity : Type := Verbose | Quiet.

(** The string a [Verbosity] is in the source. *)
Definition verbosity_text (v : Verbosity) : string :=
  match v with Verbose => "verbose" | Quiet => "quiet" end.

(** [if (v)] on a string. *)
Definition truthy (s : string) : bool := negb (not_ s).

(** The fields of [FormatOptions] (print.ts) that [defaultConfig] sets. *)
Record FormatOptions : Type := {
  successPrefix : option string;
  errorPrefix : option string
}.

(** The interface [Config]; a number of seconds is a rational. *)
Record Config : Type := {
  timeoutSeconds : option Q;
  verbosity : option Verbosity;
  colors : option bool;
  formatOptions : option FormatOptions
}.

Definition defaultConfig : Config :=
  {| timeoutSeconds := Some (120 # 1)%Q;
     verbosity := Some Verbose;
     colors := Some true;
     formatOptions :=
       Some {| successPrefix := Some ""; errorPrefix := Some "" |} |}.

(** [config?.field ?? defaultConfig?.field], [defaultConfig] being the
    object as it is when [action] is called. *)
Definition setting {A : Type} (field : Config -> option A)
  (config : option Config) (dc : Config) : option A :=
  match match config with Some c => field c | None => None end with
  | Some x => Some x
  | None => field dc
  end.

Definition or_else {A : Type} (a : option A) (b : A) : A :=
  match a with Some x => x | None => b end.

(** What [action] writes to the standard output: the label line, the line
    with the tag of the outcome (coloured or not; the elapsed time printed
    with it is the host's), and the formatted result of a failed command. *)
Inductive Line : Type :=
| LabelLine (label : string)
| TagLine (tag : string) (colored : bool)
| ResultLines (r : ShellResult) (o : option FormatOptions).

(** The world of an action: the standard output, the timers that are armed
    (identifier and the delay [setTimeout] was called with), and the next
    timer identifier. *)
Record World : Type := {
  console : list Line;
  armed : list (nat * Q);
  next_timer : nat
}.

Definition write (l : Line) (w : World) : World :=
  {| console := (console w ++ [l])%list;
     armed := armed w;
     next_timer := next_timer w |}.

(** [setTimeout(callback, delay)]. *)
Definition setTimeout (delay : Q) (w : World) : World * nat :=
  ({| console := console w;
      armed := (armed w ++ [(next_timer w, delay)])%list;
      next_timer := S (next_timer w) |},
   next_timer w).

Definition disarm (id : nat) (w : World) : World :=
  {| console := console w;
     armed := List.filter (fun t => negb (Nat.eqb (fst t) id)) (armed w);
     next_timer := next_timer w |}.

(** [clearTimeout(id)]; a timer that has fired is armed no more. *)
Definition clearTimeout (id : nat) (w : World) : World := disarm id w.

Definition fire (id : nat) (w : World) : World := disarm id w.

(** [TimeoutCookie]: the field [timeoutId]. *)
Definition TimeoutCookie : Type := option nat.

Definition clearTimeoutCookie (tc : TimeoutCookie) (w : World)
  : World * TimeoutCookie :=
  match tc with
  | Some id => (clearTimeout id w, None)
  | None => (w, None)
  end.

(** A promise as the race sees it: it settles some milliseconds after the
    call, or it never does. *)
Inductive Settlement (T : Type) : Type :=
| Resolved (v : T)
| Rejected (e : JsError).
Arguments Resolved {T} v.
Arguments Rejected {T} e.

Inductive Promise (T : Type) : Type :=
| Settles (at_ms : Q) (s : Settlement T)
| NeverSettles.
Arguments Settles {T} at_ms s.
Arguments NeverSettles {T}.

(** A call of the work function throws at once or returns a promise. *)
Inductive Called (T : Type) : Type :=
| CallThrows (e : JsError)
| CallReturns (p : Promise T).
Arguments CallThrows {T} e.
Arguments CallReturns {T} p.

(** An [AbortSignal], by the time after which it reads as aborted. *)
Record AbortSignal : Type := { aborted_after_ms : Q }.

(** A work function.  A callee may name a parameter that its caller does not
    pass and then finds [undefined] in it, here [None]. *)
Definition Work (T : Type) : Type := option AbortSignal -> Called T.

Inductive Winner (T : Type) : Type :=
| WorkFirst (s : Settlement T)
| TimerFirst.
Arguments WorkFirst {T} s.
Arguments TimerFirst {T}.

(** The host takes the delay of [setTimeout] as a WebIDL [long]: the number
    is cut to its whole part and reduced modulo 2^32 into the range from
    -2^31 to 2^31 - 1. *)
Definition to_long (delay : Q) : Z :=
  let whole := Z.quot (Qnum delay) (Zpos (Qden delay)) in
  ((whole + 2147483648) mod 4294967296 - 2147483648)%Z.

(** The milliseconds after which a timer set with [delay] fires: a negative
    delay counts as none. *)
Definition due_ms (delay : Q) : Z := Z.max 0 (to_long delay).

(** [Promise.race([p, timeoutPromise])] with the timer set with [delay]: the
    work wins if it has settled by the time the timer fires. *)
Definition race {T : Type} (p : Promise T) (delay : Q) : Winner T :=
  match p with
  | Settles t s =>
      if Qle_bool t (inject_Z (due_ms delay)) then WorkFirst s else TimerFirst
  | NeverSettles => TimerFirst
  end.

(** [T | TimeoutSymbol]. *)
Inductive Raced (T : Type) : Type :=
| Value (v : T)
| timeoutSymbol.
Arguments Value {T} v.
Arguments timeoutSymbol {T}.

Definition timeoutPromise {T : Type} (tc : TimeoutCookie) (p : Promise T)
  (timeoutSeconds : Q) (w : World)
  : World * TimeoutCookie * completion (Raced T) :=
  let delay := (timeoutSeconds * (1000 # 1))%Q in
  let (w, id) := setTimeout delay w in
  let tc : TimeoutCookie := Some id in
  match race p delay with
  | WorkFirst (Resolved v) =>
      let (w, tc) := clearTimeoutCookie tc w in (w, tc, Return (Value v))
  | WorkFirst (Rejected e) => (w, tc, Throw e)
  | TimerFirst =>
      let w := fire id w in
      let (w, tc) := clearTimeoutCookie tc w in (w, tc, Return timeoutSymbol)
  end.

(** [shAction]: [sh.map] of a function that throws a [ShellError] on a
    non-zero exit code. *)
Definition shAction {V : Type} (String_ : V -> string) (h : Exec.Host)
  : Tag.TagFunction Exec.Proc V ShellResult :=
  Tag.map String_ (Exec.sh String_ h)
    (Tag.post_only
       (fun result =>
          if Z.eqb (code result) 0 then Effects.ret result
          else Effects.throw (ShellError result))).

Definition is_SkipError (e : JsError) : bool :=
  match e with SkipError => true | _ => false end.

Definition is_TimeoutError (e : JsError) : bool :=
  match e with TimeoutError => true | _ => false end.

(** [action(label, f, config)]; the result [None] is [undefined]. *)
Definition action {T : Type} (dc : Config) (label : string) (f : Work T)
  (config : option Config) (w : World) : World * completion (option T) :=
  let v := verbosity_text (or_else (setting verbosity config dc) Verbose) in
  let colored := or_else (setting colors config dc) true in
  let w := if truthy v then write (LabelLine label) w else w in
  let tc : TimeoutCookie := None in
  (* try *)
  let timeoutSeconds := or_else (setting timeoutSeconds config dc) (120 # 1)%Q in
  let '(w, tc, r) :=
    match f None with
    | CallThrows e => (w, tc, Throw e)
    | CallReturns p =>
        let '(w, tc, result) := timeoutPromise tc p timeoutSeconds w in
        match result with
        | Throw e => (w, tc, Throw e)
        | Return timeoutSymbol => (w, tc, Throw TimeoutError)
        | Return (Value result) =>
            let w := if truthy v then write (TagLine "OK" colored) w else w in
            (w, tc, Return (Some result))
        end
    end in
  (* catch *)
  let '(w, r) :=
    match r with
    | Return x => (w, Return x)
    | Throw err =>
        if is_SkipError err then
          let w := if truthy v then write (TagLine "SKIPPED" colored) w else w in
          (w, Return None)
        else
          let errLabel := if is_TimeoutError err then "TIMEOUT" else "ERROR" in
          let w := if truthy v then write (TagLine errLabel colored) w else w in
          let w :=
            match err with
            | ShellError result =>
                if truthy v
                then write (ResultLines result (setting formatOptions config dc)) w
                else w
            | _ => w
            end in
          (w, Throw err)
    end in
  (* finally *)
  let (w, _) := clearTimeoutCookie tc w in
  (w, r).

End Action.

(** ** The shell's quoting grammar

    The reference de-quoting function of one shell word: single-quoted spans
    are literal up to the next ['], double-quoted spans are literal up to the
    next double quote except that backslash, dollar and backquote keep their
    special meaning there (so the reference refuses them), and outside quotes
    only characters of the safe class stand for themselves. *)

Module Shell.
Import Js Mod.

Inductive quoting : Type := Bare | InSingle | InDouble.

(** Backslash (code 92), dollar and backquote. *)
Definition special_in_double (c : ascii) : bool :=
  Ascii.eqb c (ascii_of_nat 92) || Ascii.eqb c "$"%char || Ascii.eqb c "`"%char.

Definition emit (c : ascii) (r : option string) : option string :=
  match r with Some t => Some (String c t) | None => None end.

Fixpoint dequote (st : quoting) (s : string) : option string :=
  match s with
  | EmptyString =>
      match st with Bare => Some EmptyString | _ => None end
  | String c r =>
      match st with
      | Bare =>
          if Ascii.eqb c squote then dequote InSingle r
          else if Ascii.eqb c dquote then dequote InDouble r
          else if safeShellChar c then emit c (dequote Bare r)
          else None
      | InSingle =>
          if Ascii.eqb c squote then dequote Bare r
          else emit c (dequote InSingle r)
      | InDouble =>
          if Ascii.eqb c dquote then dequote Bare r
          else if special_in_double c then None
          else emit c (dequote InDouble r)
      end
  end.

(** [emit] for every character of [m] in turn. *)
Fixpoint emit_all (m : string) (r : option string) : option string :=
  match m with
  | EmptyString => r
  | String c m' => emit c (emit_all m' r)
  end.

(** The text of the single argument a word stands for; the empty text is no
    word at all. *)
Definition tokenize_single (word : string) : option string :=
  match word with
  | EmptyString => None
  | String _ _ => dequote Bare word
  end.

End Shell.

(** ** The quoting rule in the specification's words

    A second account of [quoteString] for inputs outside the safe class,
    written after the specification rather than after the code: the text is
    cut into its maximal runs, every run of quotes is re-quoted, and an empty
    pair of quotes is dropped at either end. *)

Module Words.
Import Js Mod.

(** The maximal runs of a text: neighbouring characters stay together as
    long as they are all quotes or all something else. *)
Fixpoint runs (s : string) : list string :=
  match s with
  | EmptyString => []
  | String c r =>
      match runs r with
      | [] => [String c EmptyString]
      | g :: gs =>
          if Bool.eqb (Ascii.eqb c squote) (first_is squote g)
          then String c g :: gs
          else String c EmptyString :: g :: gs
      end
  end.

(** A text of quotes only. *)
Fixpoint all_quotes (s : string) : bool :=
  match s with
  | EmptyString => true
  | String c r => Ascii.eqb c squote && all_quotes r
  end.

(** [n] quotes in a row. *)
Fixpoint quotes (n : nat) : string :=
  match n with
  | 0 => EmptyString
  | S k => String squote (quotes k)
  end.

(** Close the single quote, give the run in double quotes, reopen. *)
Definition requote_run (g : string) : string :=
  if first_is squote g then SQ ++ DQ ++ g ++ DQ ++ SQ else g.

Definition replace_runs (s : string) : string :=
  String.concat EmptyString (List.map requote_run (runs s)).

(** A text that begins with an empty pair of single quotes loses it. *)
Definition strip_leading_pair (s : string) : string :=
  if String.prefix (SQ ++ SQ) s
  then String.substring 2 (String.length s - 2) s
  else s.

(** A text whose last two characters are single quotes loses them. *)
Definition strip_trailing_pair (s : string) : string :=
  if last_is squote s && last_is squote (substring_to_last s)
  then substring_to_last (substring_to_last s)
  else s.

Definition quoteString_unsafe (s : string) : string :=
  match s with
  | EmptyString => SQ ++ SQ
  | String _ _ =>
      strip_trailing_pair (strip_leading_pair (SQ ++ replace_runs s ++ SQ))
  end.

(** *** The template compiler in the specification's words

    A template is its first literal fragment and then, for every gap, the
    interpolated value and the literal fragment that follows it. *)

Section Compile.
Context {V : Type}.
Variable String_ : V -> string.

(** A value that is not an empty array: quoted, an array element by element
    with single spaces in between. *)
Definition quoted_argument (a : Argument V) : string :=
  match a with
  | Scalar v => quoteString (String_ v)
  | ArrayArg vs => join " " (List.map (fun v => quoteString (String_ v)) vs)
  end.

(** An empty array between the text so far and the next fragment: it gives
    nothing and takes one space away, from the fragment if it starts with
    one, otherwise from the end of the text so far if there is one. *)
Definition absorb_space (acc p : string) : string :=
  if first_is space p then acc ++ substring_from_1 p
  else if last_is space acc then substring_to_last acc ++ p
  else acc ++ p.

Fixpoint compile (acc : string) (gaps : list (Argument V * string)) : string :=
  match gaps with
  | [] => acc
  | (ArrayArg [], p) :: rest => compile (absorb_space acc p) rest
  | (a, p) :: rest => compile (acc ++ quoted_argument a ++ p) rest
  end.

End Compile.

(** *** Finalizers in the specification's words *)

Section Finalizers.
Import Effects Tag.
Context {W V : Type}.


(** The world after each of the given finalizers has run once, in order. *)
Definition finalize_all (fs : list (option (M W unit))) (w : W) : W :=
  fold_left (fun w' f => fst (call_optional f w')) fs w.


End Finalizers.

(** *** The outcome of an action in the specification's words *)

Section Outcomes.
Import Action.
Context {T : Type}.








(** No armed timer bears an identifier that is still to be given out. *)
Definition fresh_timers (w : World) : Prop :=
  Forall (fun t => fst t < next_timer w) (armed w).

End Outcomes.

End Words.

(** ** Sample tag functions

    The chain of the example [map.ts], with the console as the world: every
    stage writes a line, and [pre] also marks the command it was given. *)

Module Sample.
Import Js Mod Effects Tag.
Local Open Scope effects_scope.

Definition Console : Type := list string.

(** [console.log(line)]. *)
Definition log (line : string) : M Console unit :=
  fun w => ((w ++ [line])%list, Return tt).

Definition String_ (v : string) : string := v.

(** An executor that reports the command it is given and returns it. *)
Definition exec_echo (cmd : string) : M Console string :=
  log ("EXEC " ++ cmd) ;;; ret cmd.

Definition sh : TagFunction Console string string := plain String_ exec_echo.

Definition layer (name : string) : MapParameters Console string string :=
  {| pre := Some (fun c => log ("PRE " ++ name) ;;; ret (c ++ " #" ++ name));
     post := fun r => log ("POST " ++ name) ;;; ret r;
     finalize := Some (log ("FINALIZE " ++ name)) |}.



Definition sh_A_B : TagFunction Console string string :=
  map String_ (map String_ sh (layer "A")) (layer "B").

Definition sh_1_2_3 : TagFunction Console string string :=
  map String_ (map String_ (map String_ sh (layer "1")) (layer "2")) (layer "3").



(** The template [`echo ${"Hello, world"}`]. *)
Definition echo_hello : Template string :=
  {| first_piece := "echo "; gaps := [(Scalar "Hello, world", "")] |}.

(** The position of the first occurrence of a line. *)
Fixpoint position (line : string) (w : Console) : option nat :=
  match w with
  | [] => None
  | l :: rest =>
      if String.eqb l line then Some 0
      else match position line rest with Some n => Some (S n) | None => None end
  end.

(** Both lines were written, the first one earlier. *)
Definition precedes (a b : string) (w : Console) : bool :=
  match position a w, position b w with
  | Some i, Some j => Nat.ltb i j
  | _, _ => false
  end.


End Sample.

(** ** Sample actions and executions *)

Module SampleAction.
Import Js Mod Action Exec.

Definition world0 : World := {| console := []; armed := []; next_timer := 0 |}.

(** Work that never settles unless it is handed a signal, in which case it
    rejects once the signal is aborted. *)
Definition loop_until_aborted : Work unit :=
  fun signal =>
    match signal with
    | Some s => CallReturns (Settles (aborted_after_ms s) (Rejected (Error "aborted")))
    | None => CallReturns NeverSettles
    end.

(** [{ timeoutSeconds: 1.2 }]. *)
Definition config_1_2 : Config :=
  {| timeoutSeconds := Some (12 # 10)%Q;
     verbosity := None; colors := None; formatOptions := None |}.




(** Work that is skipped after two seconds. *)
Definition skipped_after_2s : Work unit :=
  fun _ => CallReturns (Settles (2000 # 1)%Q (Rejected SkipError)).

(** Work that resolves after two seconds. *)
Definition done_after_2s : Work nat :=
  fun _ => CallReturns (Settles (2000 # 1)%Q (Resolved 7)).

(** [{ stdin: payload }]. *)
Definition with_stdin (payload : Stdin) : ShellOptions :=
  {| shell := None; shellArgs := None; trim := None; env := None;
     stdin := Some payload |}.

(** [{}]. *)
Definition no_options : ShellOptions :=
  {| shell := None; shellArgs := None; trim := None; env := None;
     stdin := None |}.

End SampleAction.

(** ** The shell's word splitting

    The reference reading of a whole command line: as [Shell.dequote], with
    blanks outside quotes separating the words.  [cur] is the word under way,
    [None] between words. *)

Module ShellWords.
Import Js Mod Shell.

Definition sofar (cur : option string) : string :=
  match cur with Some w => w | None => EmptyString end.

Definition push (cur : option string) (c : ascii) : option string :=
  Some (sofar cur ++ String c EmptyString).

Fixpoint split (st : quoting) (cur : option string) (s : string)
  : option (list string) :=
  match s with
  | EmptyString =>
      match st with
      | Bare => Some (match cur with Some w => [w] | None => [] end)
      | _ => None
      end
  | String c r =>
      match st with
      | Bare =>
          if Ascii.eqb c space then
            match cur with
            | Some w => option_map (cons w) (split Bare None r)
            | None => split Bare None r
            end
          else if Ascii.eqb c squote then split InSingle (Some (sofar cur)) r
          else if Ascii.eqb c dquote then split InDouble (Some (sofar cur)) r
          else if safeShellChar c then split Bare (push cur c) r
          else None
      | InSingle =>
          if Ascii.eqb c squote then split Bare cur r
          else split InSingle (push cur c) r
      | InDouble =>
          if Ascii.eqb c dquote then split Bare cur r
          else if special_in_double c then None
          else split InDouble (push cur c) r
      end
  end.

(** The arguments a command line stands for. *)
Definition tokenize (line : string) : option (list string) :=
  split Bare None line.

(** The texts an interpolated value stands for. *)
Definition values {V : Type} (String_ : V -> string) (a : Argument V)
  : list string :=
  match a with
  | Scalar v => [String_ v]
  | ArrayArg vs => List.map String_ vs
  end.

(** What [quote] makes of an array [vs]. *)
Definition joined {V : Type} (String_ : V -> string) (vs : list V) : string :=
  join " " (List.map (fun v => quoteString (String_ v)) vs).

(** The text so far is empty or ends with a blank. *)
Definition ends_blank (acc : string) : bool := not_ acc || last_is space acc.

(** The fragment is empty or begins with a blank. *)
Definition begins_blank (p : string) : bool := not_ p || first_is space p.

(** A template that sets its values off by blanks: a fragment between two
    values begins and ends with a blank, the fragment after the last value is
    empty or begins with one. *)
Fixpoint set_off {V : Type} (gaps : list (Argument V * string)) : bool :=
  match gaps with
  | [] => true
  | (_, p) :: rest =>
      match rest with
      | [] => begins_blank p
      | _ :: _ => first_is space p && last_is space p && set_off rest
      end
  end.

(** The words of the values and of the fragments after them, in order. *)
Fixpoint gap_words {V : Type} (String_ : V -> string)
  (gaps : list (Argument V * string)) : option (list string) :=
  match gaps with
  | [] => Some []
  | (a, p) :: rest =>
      match tokenize p, gap_words String_ rest with
      | Some ws, Some more => Some (values String_ a ++ ws ++ more)%list
      | _, _ => None
      end
  end.

End ShellWords.

(** ** mod.ts, the older text: [quoteString] and [quote] *)

Module ModOld.
Import Js Mod.

(** The older [quoteString]: no case of its own for the empty text. *)
Definition quoteString (s : string) : string :=
  if safeShellCharsRE_test s then s
  else
    let s1 := SQ ++ replace_singleQuoteSpan requote_span s ++ SQ in
    let s2 := replace_leading_pair s1 in
    let s3 := replace_trailing_pair s2 in
    s3.

Section Quote.
Context {V : Type}.
Variable String_ : V -> string.

(** The older [quote]: every value is appended, then the next fragment. *)
Fixpoint quote_loop (pieces : list string) (i : nat) (result : option string)
  (args : list (Argument V)) : option string :=
  match args with
  | [] => quote_tail result (skipn (S i) pieces)
  | a :: args' =>
      let result :=
        match a with
        | ArrayArg vs =>
            text_of result
            ++ join " " (List.map (fun v => quoteString (String_ v)) vs)
        | Scalar v => text_of result ++ quoteString (String_ v)
        end in
      quote_loop pieces (S i)
        (Some (result ++ text_of (nth_error pieces (S i)))) args'
  end.

Definition quote (pieces : list string) (args : list (Argument V))
  : option string :=
  quote_loop pieces 0 (nth_error pieces 0) args.

(** A value that has no empty text in it and is not an empty array. *)
Definition solid (a : Argument V) : bool :=
  match a with
  | Scalar v => negb (not_ (String_ v))
  | ArrayArg vs =>
      negb (Nat.eqb (List.length vs) 0)
      && forallb (fun v => negb (not_ (String_ v))) vs
  end.

End Quote.

End ModOld.

(** ** mod.ts: [writeAll]

    A writer takes some of the bytes it is offered and says how many; which
    ones is its own matter, so a writer is given by the count it answers to
    its [n]-th call.  [writeAll] offers the rest again until nothing is left;
    the loop is cut off after [fuel] rounds. *)

Module WriteAll.

Definition Writer : Type := nat -> list Byte.byte -> nat.

(** The state of the loop: the calls made so far, [nwritten], and the bytes
    the writer has taken, oldest first. *)
Fixpoint loop (fuel : nat) (w : Writer) (arr : list Byte.byte)
  (calls nwritten : nat) (taken : list Byte.byte)
  : option (nat * list Byte.byte) :=
  if Nat.ltb nwritten (List.length arr) then
    match fuel with
    | 0 => None
    | S fuel' =>
        let chunk := skipn nwritten arr in
        let n := w calls chunk in
        loop fuel' w arr (S calls) (nwritten + n) (taken ++ firstn n chunk)%list
    end
  else Some (calls, taken).

(** [writeAll(w, arr)]: the number of calls of [w.write] and what was taken,
    or [None] when the fuel ran out. *)
Definition writeAll (fuel : nat) (w : Writer) (arr : list Byte.byte)
  : option (nat * list Byte.byte) :=
  loop fuel w arr 0 0 [].

(** A writer that keeps to its contract and gets on: it takes at least one
    byte of a chunk that has any, and no more than it is offered. *)
Definition progresses (w : Writer) : Prop :=
  forall (n : nat) (chunk : list Byte.byte),
    chunk <> [] -> 1 <= w n chunk <= List.length chunk.

(** A writer that takes two bytes at a time, or the one that is left. *)
Definition two_at_a_time : Writer :=
  fun _ chunk => Nat.min 2 (List.length chunk).

End WriteAll.

(** ** Laws of [map] *)

Module TagLaws.
Import Js Mod Effects Tag.
Local Open Scope effects_scope.

(** One layer that does what layer [A] and then layer [B] do. *)
Definition fuse {W T U X : Type} (A : MapParameters W T U)
  (B : MapParameters W U X) : MapParameters W T X :=
  {| pre := Some (fun cmd => cB <- apply_pre B cmd ;; apply_pre A cB);
     post := fun r => rA <- post A r ;; post B rA;
     finalize :=
       Some (call_optional (finalize A) ;;; call_optional (finalize B)) |}.

End TagLaws.

(** ** What an action reports *)

Module Report.
Import Js Mod Action.

(** The lines after the label line, read off what the caller gets. *)
Definition lines {T : Type} (colored : bool) (o : option FormatOptions)
  (r : completion (option T)) : list Line :=
  match r with
  | Return (Some _) => [TagLine "OK" colored]
  | Return None => [TagLine "SKIPPED" colored]
  | Throw TimeoutError => [TagLine "TIMEOUT" colored]
  | Throw (ShellError result) => [TagLine "ERROR" colored; ResultLines result o]
  | Throw _ => [TagLine "ERROR" colored]
  end.

(** [config] with its [verbosity] set to [v]. *)
Definition with_verbosity (v : option Verbosity) (c : Config) : Config :=
  {| timeoutSeconds := timeoutSeconds c;
     verbosity := v;
     colors := colors c;
     formatOptions := formatOptions c |}.

End Report.

(** ** print.ts

    The texts of print.ts hold characters beyond ASCII, so here a string is
    the list of its UTF-16 code units.  Colours, the hexadecimal encoding of
    the standard library and the text of a number of seconds are the host's
    and come in a [Render]. *)

From Stdlib Require Import DecimalString.

Module Print.
Import Js Mod.
Local Open Scope list_scope.

Definition ustring : Type := list N.

(** The code units of an ASCII text. *)
Definition units (s : string) : ustring :=
  List.map N_of_ascii (list_ascii_of_string s).

Definition LF : N := 10.
Definition TAB : N := 9.
Definition CR : N := 13.
Definition SPACE : N := 32.
Definition ZERO : N := 48.
(** U+240A, U+2409, U+240D: the symbols for line feed, tabulation and
    carriage return; U+2502, the vertical bar of the dump; U+2714 and
    U+2718, the default prefixes. *)
Definition SYMBOL_LF : N := 9226.
Definition SYMBOL_TAB : N := 9225.
Definition SYMBOL_CR : N := 9229.
Definition BAR : N := 9474.
Definition CHECK : N := 10004.
Definition CROSS : N := 10008.

(** [if (s)] on a string. *)
Definition nonempty (s : ustring) : bool :=
  match s with [] => false | _ :: _ => true end.

(** [s.padEnd(n)] and [s.padStart(n, fill)]. *)
Definition padEnd (n : nat) (s : ustring) : ustring :=
  s ++ repeat SPACE (n - List.length s).

Definition padStart (n : nat) (fill : N) (s : ustring) : ustring :=
  repeat fill (n - List.length s) ++ s.

(** [s.substring(a, b)] and [bytes.subarray(a, b)] for [a <= b]. *)
Definition substring {A : Type} (a b : nat) (s : list A) : list A :=
  firstn (b - a) (skipn a s).

(** Template text of a non-negative whole number and of an integer. *)
Definition show_nat (n : nat) : ustring :=
  units (NilZero.string_of_uint (Nat.to_uint n)).

Definition show_Z (z : Z) : ustring :=
  units (NilZero.string_of_int (Z.to_int z)).

(** [n.toString(16)]: the hexadecimal digits of [n], lower case. *)
Definition hex_digit (d : nat) : N :=
  if Nat.ltb d 10 then (48 + N.of_nat d)%N else (87 + N.of_nat d)%N.

Fixpoint toString16_loop (fuel n : nat) (acc : ustring) : ustring :=
  match fuel with
  | 0 => acc
  | S fuel' =>
      let acc' := hex_digit (n mod 16) :: acc in
      if Nat.eqb (n / 16) 0 then acc' else toString16_loop fuel' (n / 16) acc'
  end.

Definition toString16 (n : nat) : ustring := toString16_loop (S n) n [].

Record Render : Type := {
  green : ustring -> ustring;
  red : ustring -> ustring;
  brightRed : ustring -> ustring;
  gray : ustring -> ustring;
  encodeHex : list Byte.byte -> ustring;
  show_seconds : Z -> ustring
}.

(** [(v) => v < 32 || v > 126 ? 46 : v]. *)
Definition printable (v : Byte.byte) : N :=
  let n := Byte.to_N v in
  if N.ltb n 32 || N.ltb 126 n then 46%N else n.

(** The inner loop over [i] from 0 to 15. *)
Definition hex_columns (hslice : ustring) : ustring :=
  fold_left
    (fun buf i =>
       let buf := buf ++ substring (i * 2) (i * 2 + 2) hslice in
       let buf := buf ++ [SPACE] in
       if Nat.eqb i 7 || Nat.eqb i 15 then buf ++ [SPACE] else buf)
    (seq 0 16) [].

(** The body of the outer loop at [offset], but for the line feed. *)
Definition row (r : Render) (bytes : list Byte.byte) (hexBytes : ustring)
  (offset : nat) : ustring :=
  let bslice :=
    padEnd 16 (List.map printable (substring offset (offset + 16) bytes)) in
  let hslice :=
    padEnd 32 (substring (offset * 2) ((offset + 16) * 2) hexBytes) in
  padStart 8 ZERO (toString16 offset) ++ [SPACE; SPACE]
  ++ hex_columns hslice ++ [BAR] ++ bslice ++ [BAR].

(** The outer loop; it needs one round of fuel for each row. *)
Fixpoint dump_loop (fuel : nat) (r : Render) (bytes : list Byte.byte)
  (hexBytes : ustring) (offset : nat) (buf : ustring) : ustring :=
  if Nat.ltb offset (List.length bytes) then
    match fuel with
    | 0 => buf
    | S fuel' =>
        let buf := if Nat.eqb offset 0 then buf else buf ++ [LF] in
        dump_loop fuel' r bytes hexBytes (offset + 16)
          (buf ++ row r bytes hexBytes offset)
    end
  else buf.

Definition binaryToString (r : Render) (bytes : list Byte.byte)
  (limit : option nat) : ustring :=
  if Nat.eqb (List.length bytes) 0 then []
  else
    let bytes :=
      match limit with
      | Some l => substring 0 l bytes
      | None => bytes
      end in
    dump_loop (List.length bytes) r bytes (encodeHex r bytes) 0 [].

(** [v.replace(/c/g, x)] for a pattern of the one character [c]. *)
Definition replace_all (c x : N) (v : ustring) : ustring :=
  List.map (fun u => if N.eqb u c then x else u) v.

Definition makeControlCharactersVisible (v : ustring) : ustring :=
  replace_all CR SYMBOL_CR (replace_all TAB SYMBOL_TAB (replace_all LF SYMBOL_LF v)).

(** What the three replacements do to one character. *)
Definition visible_unit (u : N) : N :=
  if N.eqb u LF then SYMBOL_LF
  else if N.eqb u TAB then SYMBOL_TAB
  else if N.eqb u CR then SYMBOL_CR
  else u.

(** [string | Uint8Array]. *)
Inductive Output : Type :=
| TextOut (s : ustring)
| BinaryOut (b : list Byte.byte).

Definition outputToString (r : Render) (v : Output) (maxBytes : option nat)
  : ustring :=
  match v with
  | TextOut s => s
  | BinaryOut b => binaryToString r b maxBytes
  end.

(** The loop of [countLines]: every [r.exec(v)] finds the next line feed. *)
Fixpoint count_matches (v : ustring) : nat :=
  match v with
  | [] => 0
  | u :: rest => if N.eqb u LF then S (count_matches rest) else count_matches rest
  end.

Definition countLines (v : ustring) : nat := count_matches v + 1.

Definition optS (n : nat) : ustring :=
  if Nat.ltb 1 n then units "s" else [].

Definition linesText (v : ustring) : ustring :=
  let n := countLines v in
  show_nat n ++ units " line" ++ optS n.

(** [props.join(" | ")]. *)
Fixpoint join_props (props : list ustring) : ustring :=
  match props with
  | [] => []
  | [p] => p
  | p :: rest => p ++ units " | " ++ join_props rest
  end.

Definition truthy_flag (b : option bool) : bool :=
  match b with Some true => true | _ => false end.

Definition outputStatus (v : Output) (trimmed : option bool)
  (maxBytes : option nat) : ustring :=
  join_props
    match v with
    | TextOut s =>
        [units "utf-8" ++ (if truthy_flag trimmed then units " (trimmed)" else []);
         linesText s;
         show_nat (List.length s) ++ units " character" ++ optS (List.length s)]
    | BinaryOut b =>
        [units "binary";
         show_nat (List.length b) ++ units " byte" ++ optS (List.length b)]
        ++ match maxBytes with
           | Some m =>
               if Nat.ltb m (List.length b)
               then [show_nat m ++ units " bytes printed"]
               else []
           | None => []
           end
    end.

(** [number | "unlimited"]. *)
Inductive MaxBytes : Type :=
| Limit (n : Z)
| Unlimited.

(** The interface [FormatOptions]. *)
Record FormatOptions : Type := {
  verbose : option bool;
  suppressOutput : option bool;
  maxBytes : option MaxBytes;
  annotate : option bool;
  colors : option bool;
  omitCmd : option bool;
  successPrefix : option ustring;
  errorPrefix : option ustring
}.

(** The interfaces [ShellResult] and [ShellResultBinary] of mod.ts as
    print.ts reads them: every text is the list of its code units, whatever
    the characters. *)
Record ShellResult : Type := {
  code : Z;
  stdout : ustring;
  stderr : ustring;
  cmd : ustring;
  elapsedMilliseconds : Z;
  trimmed : bool
}.

Record ShellResultBinary : Type := {
  bin_code : Z;
  bin_stdout : list Byte.byte;
  bin_stderr : list Byte.byte;
  bin_cmd : ustring;
  bin_elapsedMilliseconds : Z
}.

(** [ShellResult | ShellResultBinary]. *)
Inductive AnyResult : Type :=
| OfText (r : ShellResult)
| OfBinary (r : ShellResultBinary).

Definition code_of (r : AnyResult) : Z :=
  match r with OfText t => code t | OfBinary b => bin_code b end.

Definition stdout_of (r : AnyResult) : Output :=
  match r with
  | OfText t => TextOut (stdout t)
  | OfBinary b => BinaryOut (bin_stdout b)
  end.

Definition stderr_of (r : AnyResult) : Output :=
  match r with
  | OfText t => TextOut (stderr t)
  | OfBinary b => BinaryOut (bin_stderr b)
  end.

Definition cmd_of (r : AnyResult) : ustring :=
  match r with OfText t => cmd t | OfBinary b => bin_cmd b end.

Definition elapsed_of (r : AnyResult) : Z :=
  match r with
  | OfText t => elapsedMilliseconds t
  | OfBinary b => bin_elapsedMilliseconds b
  end.

Definition trimmed_of (r : AnyResult) : option bool :=
  match r with OfText t => Some (trimmed t) | OfBinary _ => None end.

(** [opts?.field]. *)
Definition opt {A : Type} (opts : option FormatOptions)
  (field : FormatOptions -> option A) : option A :=
  match opts with Some o => field o | None => None end.

Definition or_default {A : Type} (a : option A) (d : A) : A :=
  match a with Some x => x | None => d end.

(** [if (str) str += "\n"]. *)
Definition newline (str : ustring) : ustring :=
  if nonempty str then str ++ [LF] else str.

(** [opts?.maxBytes === "unlimited" ? undefined
     : Math.max(0, opts?.maxBytes ?? 320)]. *)
Definition maxBytes_of (opts : option FormatOptions) : option nat :=
  match opt opts maxBytes with
  | Some Unlimited => None
  | Some (Limit n) => Some (Z.to_nat (Z.max 0 n))
  | None => Some (Z.to_nat (Z.max 0 320))
  end.

(** One of the two blocks [if (out) { ... }] and [if (err) { ... }]. *)
Definition output_block (annotated : bool) (cgray : ustring -> ustring)
  (title : string) (shown : ustring) (status : ustring) (str : ustring)
  : ustring :=
  if nonempty shown then
    let str :=
      if annotated then
        newline str
        ++ cgray (units "[ " ++ units title ++ units " | " ++ status ++ units " ]")
      else str in
    newline str ++ shown
  else str.

Definition formatShellResult (rd : Render) (result : AnyResult)
  (opts : option FormatOptions) : ustring :=
  let col := or_default (opt opts colors) true in
  let thru := fun v : ustring => v in
  let cgreen := if col then green rd else thru in
  let cred := if col then red rd else thru in
  let cbrightRed := if col then brightRed rd else thru in
  let cgray := if col then gray rd else thru in
  let str : ustring := [] in
  let elapsedSuffix :=
    units " [" ++ show_seconds rd (elapsed_of result) ++ units "s]" in
  let maxBytes := maxBytes_of opts in
  let cmd :=
    if truthy_flag (opt opts omitCmd) then []
    else makeControlCharactersVisible (cmd_of result) in
  let '(str, out, err) :=
    if Z.eqb (code_of result) 0 then
      let '(out, err) :=
        if truthy_flag (opt opts verbose)
        then (outputToString rd (stdout_of result) maxBytes,
              outputToString rd (stderr_of result) maxBytes)
        else ([], []) in
      let hasOutput := nonempty out || nonempty err in
      let colon := if hasOutput then units ":" else [] in
      let str := newline str in
      let prefix := or_default (opt opts successPrefix) [CHECK] in
      let prefix :=
        if nonempty prefix && nonempty cmd then prefix ++ [SPACE] else prefix in
      (str ++ cgreen (prefix ++ cmd) ++ elapsedSuffix ++ colon, out, err)
    else
      let '(out, err) :=
        if negb (truthy_flag (opt opts suppressOutput))
        then (outputToString rd (stdout_of result) maxBytes,
              outputToString rd (stderr_of result) maxBytes)
        else ([], []) in
      let hasOutput := nonempty out || nonempty err in
      let colon := if hasOutput then units ":" else [] in
      let str := newline str in
      let prefix := or_default (opt opts errorPrefix) [CROSS] in
      let prefix :=
        if nonempty prefix && nonempty cmd then prefix ++ [SPACE] else prefix in
      (str ++ cred (prefix ++ cmd) ++ elapsedSuffix
       ++ cbrightRed (units " (" ++ show_Z (code_of result) ++ units ")")
       ++ colon, out, err) in
  let annotated := or_default (opt opts annotate) true in
  let str :=
    output_block annotated cgray "STDOUT" out
      (outputStatus (stdout_of result) (trimmed_of result) maxBytes) str in
  let str :=
    output_block annotated cgray "STDERR" err
      (outputStatus (stderr_of result) (trimmed_of result) maxBytes) str in
  str.

(** A result with its two outputs emptied. *)
Definition without_output (result : AnyResult) : AnyResult :=
  match result with
  | OfText t =>
      OfText {| code := code t; stdout := []; stderr := [];
                cmd := cmd t; elapsedMilliseconds := elapsedMilliseconds t;
                trimmed := trimmed t |}
  | OfBinary b =>
      OfBinary {| bin_code := bin_code b; bin_stdout := []; bin_stderr := [];
                  bin_cmd := bin_cmd b;
                  bin_elapsedMilliseconds := bin_elapsedMilliseconds b |}
  end.

(** The options keep the outputs of this result out of the report: it
    succeeded and [verbose] is not set, or it failed and [suppressOutput] is
    set, or it is binary and [maxBytes] is zero or less. *)
Definition silenced (result : AnyResult) (opts : option FormatOptions) : bool :=
  (Z.eqb (code_of result) 0 && negb (truthy_flag (opt opts verbose)))
  || (negb (Z.eqb (code_of result) 0) && truthy_flag (opt opts suppressOutput))
  || match result, opt opts maxBytes with
     | OfBinary _, Some (Limit n) => Z.leb n 0
     | _, _ => false
     end.




End Print.

(** A host for the examples: colours left out, two lower-case hexadecimal
    digits for each byte, and the seconds of a whole number of seconds. *)
Module SamplePrint.
Import Js Mod Print.
Local Open Scope list_scope.

Definition hex_of_byte (b : Byte.byte) : ustring :=
  let n := N.to_nat (Byte.to_N b) in [hex_digit (n / 16); hex_digit (n mod 16)].

Definition render : Render :=
  {| green := fun s => s;
     red := fun s => s;
     brightRed := fun s => s;
     gray := fun s => s;
     encodeHex := fun bytes => List.concat (List.map hex_of_byte bytes);
     show_seconds := fun ms => show_Z (ms / 1000) |}.

(** [ls] succeeded after two seconds and printed two lines. *)
Definition listing : AnyResult :=
  OfText {| code := 0; stdout := units "a.txt" ++ LF :: units "b.txt";
            stderr := []; cmd := units "ls";
            elapsedMilliseconds := 2000; trimmed := true |}.


End SamplePrint.

(** * Properties *)

Import Js Mod.

(** ** The tests of mod_test.ts *)

Example quoteString_test_1 : quoteString "-param=value" = "-param=value".
Proof. reflexivity. Qed.

Example quoteString_test_2 : quoteString "a b" = "'a b'".
Proof. reflexivity. Qed.

Example quoteString_test_3 : quoteString "$foo" = "'$foo'".
Proof. reflexivity. Qed.

Example quoteString_test_4 : quoteString "foo" = "foo".
Proof. reflexivity. Qed.

Example quoteString_test_5 :
  quoteString (DQ ++ "double" ++ DQ) = "'" ++ DQ ++ "double" ++ DQ ++ "'".
Proof. reflexivity. Qed.

Example quoteString_test_6 :
  quoteString "'single'" = DQ ++ "'" ++ DQ ++ "'single'" ++ DQ ++ "'" ++ DQ.
Proof. reflexivity. Qed.

Example quoteString_test_7 : quoteString "''''" = DQ ++ "''''" ++ DQ.
Proof. reflexivity. Qed.

Example quoteString_test_8 : quoteString "'''" = DQ ++ "'''" ++ DQ.
Proof. reflexivity. Qed.

Example quoteString_test_9 : quoteString "''" = DQ ++ "''" ++ DQ.
Proof. reflexivity. Qed.

Example quoteString_test_10 : quoteString "'" = DQ ++ "'" ++ DQ.
Proof. reflexivity. Qed.

Example quoteString_test_11 :
  quoteString "' '" = DQ ++ "'" ++ DQ ++ "' '" ++ DQ ++ "'" ++ DQ.
Proof. reflexivity. Qed.

Example quoteString_test_12 : quoteString "" = "''".
Proof. reflexivity. Qed.

Example quote_test_1 :
  quote Sample.String_ ["ls -l "; " "; ""] [Scalar "$foo"; Scalar "31337"]
  = Return (Some "ls -l '$foo' 31337").
Proof. reflexivity. Qed.

Example quote_test_2 :
  quote Sample.String_ ["command "; ""]
    [ArrayArg ["5"; "true"; "-v"; "this is a sentence"]]
  = Return (Some "command 5 true -v 'this is a sentence'").
Proof. reflexivity. Qed.

Example quote_test_3 :
  quote Sample.String_ ["a "; " b"] [ArrayArg []] = Return (Some "a b").
Proof. reflexivity. Qed.

Example quote_test_4 :
  quote Sample.String_ ["a"; "b"] [ArrayArg []] = Return (Some "ab").
Proof. reflexivity. Qed.

Example quote_test_5 :
  quote Sample.String_ [""; " b"] [ArrayArg []] = Return (Some "b").
Proof. reflexivity. Qed.

Example quote_test_6 :
  quote Sample.String_ [""; "b"] [ArrayArg []] = Return (Some "b").
Proof. reflexivity. Qed.

Example quote_test_7 :
  quote Sample.String_ ["a "; ""] [ArrayArg []] = Return (Some "a").
Proof. reflexivity. Qed.

Example quote_test_8 :
  quote Sample.String_ ["a"; ""] [ArrayArg []] = Return (Some "a").
Proof. reflexivity. Qed.

Example quote_test_9 :
  quote Sample.String_ [""; ""; " a "; ""]
    [ArrayArg []; ArrayArg []; ArrayArg []]
  = Return (Some "a").
Proof. reflexivity. Qed.

(** Outside a template literal the fragments may run short: a missing
    fragment reads as [undefined]. *)
Example quote_short_1 :
  quote Sample.String_ ["a"] [Scalar "x"] = Return (Some "axundefined").
Proof. reflexivity. Qed.

Example quote_short_2 :
  quote Sample.String_ ["a"] [ArrayArg []] = Throw TypeError.
Proof. reflexivity. Qed.

Example quote_short_3 :
  quote (V := string) Sample.String_ [] [] = Return None.
Proof. reflexivity. Qed.

(** ** Strings *)

Lemma append_nil_r (s : string) : s ++ "" = s.
Proof. induction s as [|c r IH]; simpl; [reflexivity | now rewrite IH]. Qed.

Lemma append_assoc (a b c : string) : (a ++ b) ++ c = a ++ (b ++ c).
Proof. induction a as [|x a IH]; simpl; [reflexivity | now rewrite IH]. Qed.

Lemma length_append (a b : string) :
  String.length (a ++ b) = String.length a + String.length b.
Proof. induction a as [|x a IH]; simpl; [reflexivity | now rewrite IH]. Qed.

(** ** The quoting engine *)

Import Shell.

Lemma quote_run_split (s : string) :
  s = fst (quote_run s) ++ snd (quote_run s)
  /\ Words.all_quotes (fst (quote_run s)) = true
  /\ first_is squote (snd (quote_run s)) = false.
Proof.
  induction s as [|c r (IH1 & IH2 & IH3)]; simpl; [auto|].
  destruct (Ascii.eqb c squote) eqn:E.
  - destruct (quote_run r) as [m rest]; simpl in *.
    rewrite E, IH2. repeat split; [congruence | exact IH3].
  - simpl. rewrite E. auto.
Qed.

Lemma singleQuoteSpanRE_match_Some (s m rest : string) :
  singleQuoteSpanRE_match s = Some (m, rest) ->
  s = m ++ rest /\ Words.all_quotes m = true /\ m <> "" /\ first_is squote rest = false.
Proof.
  unfold singleQuoteSpanRE_match. intros H.
  destruct (quote_run_split s) as (E1 & E2 & E3).
  destruct (quote_run s) as [m' rest']; simpl in *.
  destruct m' as [|a m'']; [discriminate|].
  inversion H; subst. repeat split; auto. discriminate.
Qed.

Lemma singleQuoteSpanRE_match_None (c : ascii) (r : string) :
  singleQuoteSpanRE_match (String c r) = None -> Ascii.eqb c squote = false.
Proof.
  unfold singleQuoteSpanRE_match. simpl.
  destruct (Ascii.eqb c squote); [|reflexivity].
  destruct (quote_run r); discriminate.
Qed.

Lemma emit_all_Some (m t : string) : emit_all m (Some t) = Some (m ++ t).
Proof. induction m as [|c m IH]; simpl; [reflexivity | now rewrite IH]. Qed.

Lemma dequote_InDouble_quotes (m t : string) :
  Words.all_quotes m = true ->
  dequote InDouble (m ++ t) = emit_all m (dequote InDouble t).
Proof.
  induction m as [|c m IH]; simpl; intros H; [reflexivity|].
  apply andb_prop in H as [Hc Hm].
  apply Ascii.eqb_eq in Hc; subst c. simpl. now rewrite IH.
Qed.

Lemma dequote_requote_span (m t : string) :
  Words.all_quotes m = true ->
  dequote InSingle (requote_span m ++ t) = emit_all m (dequote InSingle t).
Proof.
  intros H. unfold requote_span, SQ, DQ. simpl.
  rewrite append_assoc, dequote_InDouble_quotes by exact H.
  reflexivity.
Qed.

(** Inside a single-quoted span, the substituted text followed by the closing
    quote reads back as the original text. *)
Lemma dequote_replace_singleQuoteSpan (s : string) :
  dequote InSingle (replace_singleQuoteSpan requote_span s ++ SQ) = Some s.
Proof.
  funelim (replace_singleQuoteSpan requote_span s).
  - reflexivity.
  - destruct (singleQuoteSpanRE_match_Some _ _ _ Hm) as (E & Hq & _ & _).
    rewrite append_assoc, dequote_requote_span by exact Hq.
    match goal with IH : dequote _ _ = Some _ |- _ => rewrite IH end.
    rewrite emit_all_Some. now rewrite E.
  - pose proof (singleQuoteSpanRE_match_None _ _ e) as Ec. simpl.
    rewrite Ec.
    match goal with IH : dequote _ _ = Some _ |- _ => rewrite IH end.
    reflexivity.
Qed.

Lemma dequote_leading_pair (s : string) :
  dequote Bare (replace_leading_pair s) = dequote Bare s.
Proof.
  destruct s as [|a [|b r]]; try reflexivity.
  unfold replace_leading_pair.
  destruct (Ascii.eqb a squote) eqn:Ea; [|reflexivity].
  destruct (Ascii.eqb b squote) eqn:Eb; [|reflexivity].
  simpl. now rewrite Ea, Eb.
Qed.

Lemma dequote_trailing_pair (st : quoting) (s : string) :
  dequote st (replace_trailing_pair s) = dequote st s.
Proof.
  revert st. induction s as [|a r IH]; intros st; [reflexivity|].
  cbn [replace_trailing_pair].
  destruct (String.eqb_spec (String a r) (SQ ++ SQ)) as [E|_].
  - rewrite E. destruct st; reflexivity.
  - destruct st; simpl;
      repeat match goal with |- context [if ?b then _ else _] => destruct b end;
      rewrite ?IH; reflexivity.
Qed.

Lemma safeShellChar_not_quote (c : ascii) :
  safeShellChar c = true ->
  Ascii.eqb c squote = false /\ Ascii.eqb c dquote = false.
Proof.
  destruct c as [[] [] [] [] [] [] [] []]; vm_compute; intros H;
    first [discriminate H | split; reflexivity].
Qed.

Lemma dequote_all_safe (s : string) :
  all_safe s = true -> dequote Bare s = Some s.
Proof.
  induction s as [|c r IH]; simpl; intros H; [reflexivity|].
  apply andb_prop in H as [Hc Hr].
  destruct (safeShellChar_not_quote c Hc) as [E1 E2].
  unfold squote, dquote in *. rewrite E1, E2, Hc, (IH Hr). reflexivity.
Qed.

Lemma dequote_quoteString (s : string) :
  dequote Bare (quoteString s) = Some s.
Proof.
  unfold quoteString.
  destruct s as [|c r]; [reflexivity|]. cbn [not_].
  destruct (safeShellCharsRE_test (String c r)) eqn:Hsafe.
  - apply dequote_all_safe. exact Hsafe.
  - cbv zeta. rewrite dequote_trailing_pair, dequote_leading_pair.
    change (dequote Bare (SQ ++ ?x)) with (dequote InSingle x).
    apply dequote_replace_singleQuoteSpan.
Qed.

Lemma quoteString_nonempty (s : string) : quoteString s <> "".
Proof.
  intros E. pose proof (dequote_quoteString s) as H. rewrite E in H.
  simpl in H. injection H as <-. discriminate E.
Qed.

(** C1. Round trip: for every text [s], the shell's quoting grammar reads
    [quoteString s] back as the single argument [s]. *)
Theorem quoteString_roundtrip (s : string) :
  tokenize_single (quoteString s) = Some s.
Proof.
  unfold tokenize_single.
  pose proof (quoteString_nonempty s) as N.
  destruct (quoteString s) eqn:E; [congruence|].
  rewrite <- E. apply dequote_quoteString.
Qed.

(** A text of quotes only comes out as one double-quoted span, whatever its
    length. *)
Lemma quote_run_quotes (n : nat) :
  quote_run (Words.quotes n) = (Words.quotes n, EmptyString).
Proof.
  induction n as [|n IH]; [reflexivity|].
  cbn [Words.quotes quote_run]. rewrite Ascii.eqb_refl, IH. reflexivity.
Qed.

Lemma replace_trailing_pair_app (t : string) :
  replace_trailing_pair (t ++ SQ ++ SQ) = t.
Proof.
  induction t as [|a r IH]; [reflexivity|].
  change (String a r ++ SQ ++ SQ) with (String a (r ++ SQ ++ SQ)).
  cbn [replace_trailing_pair]. rewrite IH.
  destruct (String.eqb_spec (String a (r ++ SQ ++ SQ)) (SQ ++ SQ)) as [E|_];
    [|reflexivity].
  apply (f_equal String.length) in E. cbn [String.length] in E.
  rewrite length_append in E. simpl in E. lia.
Qed.

Lemma replace_singleQuoteSpan_match (fn : string -> string) (s m rest : string) :
  singleQuoteSpanRE_match s = Some (m, rest) ->
  replace_singleQuoteSpan fn s = fn m ++ replace_singleQuoteSpan fn rest.
Proof.
  funelim (replace_singleQuoteSpan fn s); intros E.
  - discriminate E.
  - rewrite Hm in E. now inversion E.
  - rewrite e in E. discriminate E.
Qed.

Lemma singleQuoteSpanRE_match_quotes (n : nat) :
  singleQuoteSpanRE_match (Words.quotes (S n))
  = Some (Words.quotes (S n), EmptyString).
Proof.
  unfold singleQuoteSpanRE_match. rewrite quote_run_quotes. reflexivity.
Qed.

Lemma quoteString_quotes (n : nat) :
  quoteString (Words.quotes (S n)) = DQ ++ Words.quotes (S n) ++ DQ.
Proof.
  unfold quoteString.
  change (not_ (Words.quotes (S n))) with false.
  change (safeShellCharsRE_test (Words.quotes (S n))) with false.
  cbv iota zeta.
  rewrite (replace_singleQuoteSpan_match _ _ _ _ (singleQuoteSpanRE_match_quotes n)).
  simp replace_singleQuoteSpan. rewrite append_nil_r.
  unfold requote_span.
  change (SQ ++ (SQ ++ DQ ++ ?x) ++ SQ) with (SQ ++ SQ ++ (DQ ++ x) ++ SQ).
  change (replace_leading_pair (SQ ++ SQ ++ ?x)) with x.
  rewrite !append_assoc.
  rewrite <- (append_assoc (Words.quotes (S n)) DQ).
  rewrite <- (append_assoc DQ).
  apply replace_trailing_pair_app.
Qed.

Lemma dequote_quotes (n : nat) :
  tokenize_single (DQ ++ Words.quotes (S n) ++ DQ) = Some (Words.quotes (S n)).
Proof.
  rewrite <- quoteString_quotes. unfold tokenize_single.
  pose proof (quoteString_nonempty (Words.quotes (S n))) as N.
  destruct (quoteString (Words.quotes (S n))) eqn:E; [congruence|].
  rewrite <- E. apply dequote_quoteString.
Qed.

(** ** The code against the specification's wording *)

Lemma runs_cons (c : ascii) (r : string) :
  Words.runs (String c r) =
  match Words.runs r with
  | [] => [String c EmptyString]
  | g :: gs =>
      if Bool.eqb (Ascii.eqb c squote) (first_is squote g)
      then String c g :: gs
      else String c EmptyString :: g :: gs
  end.
Proof. reflexivity. Qed.

Lemma runs_head (c : ascii) (r : string) :
  exists g gs, Words.runs (String c r) = String c g :: gs.
Proof.
  simpl. destruct (Words.runs r) as [|g gs]; [eauto|].
  destruct (Bool.eqb _ _); eauto.
Qed.

Lemma concat_cons (x : string) (xs : list string) :
  String.concat "" (x :: xs) = x ++ String.concat "" xs.
Proof. destruct xs; simpl; [now rewrite append_nil_r | reflexivity]. Qed.

Lemma requote_run_plain (c : ascii) (g : string) :
  Ascii.eqb c squote = false -> Words.requote_run (String c g) = String c g.
Proof. intros H. unfold Words.requote_run. simpl. now rewrite H. Qed.

Lemma requote_run_quote (c : ascii) (g : string) :
  Ascii.eqb c squote = true ->
  Words.requote_run (String c g) = requote_span (String c g).
Proof. intros H. unfold Words.requote_run. simpl. now rewrite H. Qed.

(** A character that is no quote is copied, whether it starts a run of its
    own or joins the next one. *)
Lemma replace_runs_plain (c : ascii) (r : string) :
  Ascii.eqb c squote = false ->
  Words.replace_runs (String c r) = String c (Words.replace_runs r).
Proof.
  intros Hc. unfold Words.replace_runs.
  destruct r as [|d r'].
  - simpl. now rewrite requote_run_plain.
  - rewrite runs_cons.
    destruct (runs_head d r') as (g & gs & E). rewrite E.
    cbn [first_is]. rewrite Hc.
    destruct (Ascii.eqb d squote) eqn:Hd; cbn [Bool.eqb List.map];
      rewrite !concat_cons, ?requote_run_plain by assumption; reflexivity.
Qed.

(** A run of quotes followed by something else is one maximal run. *)
Lemma runs_quote_run (m rest : string) :
  m <> "" -> Words.all_quotes m = true -> first_is squote rest = false ->
  Words.runs (m ++ rest) = m :: Words.runs rest.
Proof.
  induction m as [|q m IH]; [congruence|]. intros _ Hq Hrest.
  simpl in Hq. apply andb_prop in Hq as [Hq Hm].
  destruct m as [|q' m'].
  - change (String q "" ++ rest) with (String q rest). rewrite runs_cons.
    destruct rest as [|d rest']; [reflexivity|].
    destruct (runs_head d rest') as (g & gs & E). rewrite E.
    cbn [first_is] in *. rewrite Hq, Hrest. reflexivity.
  - change ((String q (String q' m')) ++ rest)
      with (String q (String q' m' ++ rest)).
    rewrite runs_cons, IH by (auto; discriminate).
    simpl in Hm. apply andb_prop in Hm as [Hq' _].
    cbn [first_is]. rewrite Hq, Hq'. reflexivity.
Qed.

Lemma all_quotes_first (m : string) :
  m <> "" -> Words.all_quotes m = true -> first_is squote m = true.
Proof.
  destruct m as [|q m]; [congruence|]. simpl. intros _ H.
  now apply andb_prop in H as [H _].
Qed.

(** The global replacement of the code re-quotes exactly the maximal runs
    of quotes. *)
Lemma replace_singleQuoteSpan_runs (s : string) :
  replace_singleQuoteSpan requote_span s = Words.replace_runs s.
Proof.
  funelim (replace_singleQuoteSpan requote_span s).
  - reflexivity.
  - destruct (singleQuoteSpanRE_match_Some _ _ _ Hm) as (E & Hq & Hne & Hr).
    rewrite E. unfold Words.replace_runs at 1.
    rewrite runs_quote_run by assumption.
    cbn [List.map]. rewrite concat_cons.
    match goal with IH : replace_singleQuoteSpan _ _ = _ |- _ => rewrite IH end.
    unfold Words.requote_run. rewrite all_quotes_first by assumption.
    reflexivity.
  - pose proof (singleQuoteSpanRE_match_None _ _ e) as Ec.
    rewrite replace_runs_plain by exact Ec.
    match goal with IH : replace_singleQuoteSpan _ _ = _ |- _ => rewrite IH end.
    reflexivity.
Qed.

Lemma runs_concat (s : string) : String.concat "" (Words.runs s) = s.
Proof.
  induction s as [|c r IH]; [reflexivity|].
  rewrite runs_cons. destruct (Words.runs r) as [|g gs]; [now rewrite <- IH|].
  rewrite concat_cons in IH.
  destruct (Bool.eqb _ _); rewrite !concat_cons; simpl; now rewrite IH.
Qed.

Lemma substring_0_length (s : string) :
  String.substring 0 (String.length s) s = s.
Proof. induction s as [|c r IH]; simpl; [reflexivity | now rewrite IH]. Qed.

Lemma prefix_pair (s : string) :
  String.prefix (SQ ++ SQ) s =
  match s with
  | String a (String b _) => Ascii.eqb a squote && Ascii.eqb b squote
  | _ => false
  end.
Proof.
  assert (D : forall x, (if ascii_dec squote x then true else false)
                        = Ascii.eqb x squote).
  { intros x. destruct (ascii_dec squote x) as [<-|N].
    - symmetry. apply Ascii.eqb_refl.
    - symmetry. apply Ascii.eqb_neq. congruence. }
  destruct s as [|a [|b r]]; cbn -[ascii_dec Ascii.eqb squote].
  - reflexivity.
  - destruct (ascii_dec squote a); reflexivity.
  - rewrite <- !D.
    destruct (ascii_dec squote a); [|reflexivity].
    destruct (ascii_dec squote b); [|reflexivity].
    destruct r; reflexivity.
Qed.

Lemma replace_leading_pair_words (s : string) :
  replace_leading_pair s = Words.strip_leading_pair s.
Proof.
  unfold Words.strip_leading_pair, replace_leading_pair.
  rewrite prefix_pair.
  destruct s as [|a [|b r]]; try reflexivity.
  destruct (Ascii.eqb a squote && Ascii.eqb b squote); [|reflexivity].
  cbn [String.length Nat.sub String.substring].
  now rewrite Nat.sub_0_r, substring_0_length.
Qed.

Lemma replace_trailing_pair_cons (a : ascii) (r : string) :
  replace_trailing_pair (String a r) =
  if String.eqb (String a r) (SQ ++ SQ) then EmptyString
  else String a (replace_trailing_pair r).
Proof. reflexivity. Qed.

Lemma replace_trailing_pair_words (s : string) :
  replace_trailing_pair s = Words.strip_trailing_pair s.
Proof.
  unfold Words.strip_trailing_pair.
  induction s as [|a r IH]; [reflexivity|].
  destruct r as [|b [|c r']].
  - simpl. destruct (Ascii.eqb a squote); reflexivity.
  - cbn. destruct (Ascii.eqb a squote), (Ascii.eqb b squote); reflexivity.
  - rewrite replace_trailing_pair_cons.
    replace (String.eqb (String a (String b (String c r'))) (SQ ++ SQ))
      with false
      by (cbn; destruct (Ascii.eqb a squote), (Ascii.eqb b squote); reflexivity).
    rewrite IH.
    change (last_is squote (String a (String b (String c r'))))
      with (last_is squote (String b (String c r'))).
    change (substring_to_last (String a (String b (String c r'))))
      with (String a (substring_to_last (String b (String c r')))).
    remember (String b (String c r')) as t eqn:Et.
    assert (Hne : substring_to_last t <> "")
      by (subst t; simpl; destruct r'; discriminate).
    destruct (substring_to_last t) as [|x u] eqn:Eu; [congruence|].
    change (last_is squote (String a (String x u)))
      with (last_is squote (String x u)).
    destruct (last_is squote t && last_is squote (String x u)); reflexivity.
Qed.

(** C2. On the empty text [quoteString] gives the token of two single quotes;
    on any other text that is not entirely in the safe class it gives the text
    in single quotes, every maximal run of quotes re-quoted in double quotes,
    less an empty pair of quotes at the start and one at the end. *)
Theorem quoteString_unsafe_shape (s : string) :
  safeShellCharsRE_test s = false ->
  quoteString s = Words.quoteString_unsafe s.
Proof.
  intros Hs. unfold quoteString, Words.quoteString_unsafe.
  destruct s as [|c r]; [reflexivity|].
  cbn [not_]. rewrite Hs. cbv zeta.
  now rewrite replace_trailing_pair_words, replace_leading_pair_words,
    replace_singleQuoteSpan_runs.
Qed.

Lemma quoteString_unsafe_shape_witness :
  safeShellCharsRE_test "it's" = false
  /\ quoteString "it's" = Words.quoteString_unsafe "it's".
Proof.
  split; [reflexivity | apply (quoteString_unsafe_shape "it's"); reflexivity].
Defined.

(** C3, as amended. On a non-empty text made of safe characters only,
    [quoteString] is the identity. *)
Theorem quoteString_safe_identity (s : string) :
  s <> "" -> all_safe s = true -> quoteString s = s.
Proof.
  intros Hne Hs. unfold quoteString.
  destruct s as [|c r]; [congruence|].
  cbn [not_]. unfold safeShellCharsRE_test. now rewrite Hs.
Qed.

Lemma quoteString_safe_identity_witness :
  "-param=value" <> "" /\ all_safe "-param=value" = true
  /\ quoteString "-param=value" = "-param=value".
Proof.
  split; [discriminate|]. split; [reflexivity|].
  apply (quoteString_safe_identity "-param=value"); [discriminate | reflexivity].
Defined.

(** C3, as stated, fails on the empty text: it has no character outside the
    safe class, yet it is quoted. *)
Lemma quoteString_safe_identity_empty :
  all_safe "" = true /\ quoteString "" <> "".
Proof. split; [reflexivity | discriminate]. Qed.

(** ** The template compiler *)

Lemma join_quoted_length {V : Type} (String_ : V -> string) (vs : list V) :
  Nat.eqb (String.length
             (join " " (List.map (fun v => quoteString (String_ v)) vs))) 0
  = match vs with [] => true | _ :: _ => false end.
Proof.
  destruct vs as [|v vs]; [reflexivity|].
  apply Nat.eqb_neq. cbn [List.map join].
  pose proof (quoteString_nonempty (String_ v)) as N.
  destruct (quoteString (String_ v)) as [|c q]; [congruence|].
  destruct (List.map _ vs); simpl; discriminate.
Qed.

Lemma skipn_cons_nth_error {A : Type} (l : list A) (n : nat) (x : A) (xs : list A) :
  skipn n l = x :: xs -> nth_error l n = Some x /\ skipn (S n) l = xs.
Proof.
  revert l. induction n as [|n IH]; intros l H.
  - destruct l; simpl in *; [discriminate|]. inversion H; subst. auto.
  - destruct l; [discriminate|]. apply (IH l H).
Qed.

Lemma quote_tail_nil (result : option string) : quote_tail result [] = result.
Proof. reflexivity. Qed.

Lemma length_pos_first_is (c : ascii) (p : string) :
  Nat.ltb 0 (String.length p) && first_is c p = first_is c p.
Proof. destruct p; reflexivity. Qed.

Lemma length_pos_last_is (c : ascii) (p : string) :
  Nat.ltb 0 (String.length p) && last_is c p = last_is c p.
Proof. destruct p; reflexivity. Qed.

Section QuoteProperties.
Context {V : Type}.
Variable String_ : V -> string.

Lemma quote_loop_compile (pieces : list string) (gaps : list (Argument V * string)) :
  forall (i : nat) (acc : string),
    skipn (S i) pieces = List.map snd gaps ->
    quote_loop String_ pieces i (Some acc) (List.map fst gaps)
    = Return (Some (Words.compile String_ acc gaps)).
Proof.
  induction gaps as [|[a p] gaps IH]; intros i acc Hp.
  - simpl in *. now rewrite Hp.
  - cbn [List.map fst snd] in *.
    apply skipn_cons_nth_error in Hp as [Hnth Hrest].
    cbn [quote_loop]. rewrite Hnth.
    destruct a as [v|vs].
    + cbn [text_of Words.compile]. rewrite (IH (S i)) by exact Hrest.
      now rewrite append_assoc.
    + rewrite join_quoted_length.
      destruct vs as [|v vs].
      * cbn [Words.compile]. unfold Words.absorb_space.
        rewrite length_pos_first_is, length_pos_last_is.
        destruct (first_is space p); cbn [text_of];
          [now rewrite (IH (S i)) by exact Hrest|].
        destruct (last_is space acc); now rewrite (IH (S i)) by exact Hrest.
      * cbn [text_of Words.compile]. rewrite (IH (S i)) by exact Hrest.
        now rewrite append_assoc.
Qed.

(** C4. [quote] on a template gives its literal fragments and its quoted
    values in template order, where an empty array gives nothing and takes
    away one neighbouring space: the leading space of the fragment after it,
    otherwise the trailing space of the text before it. *)
Theorem quote_compile (p0 : string) (gaps : list (Argument V * string)) :
  quote String_ (p0 :: List.map snd gaps) (List.map fst gaps)
  = Return (Some (Words.compile String_ p0 gaps)).
Proof.
  unfold quote. cbn [nth_error]. apply quote_loop_compile. reflexivity.
Qed.

(** Inside a tag function [quote] always gives a command. *)
Lemma quote_template_compile {W : Type} (t : Tag.Template V) :
  Tag.quote_template (W := W) String_ t
  = Effects.ret (Words.compile String_ (Tag.first_piece t) (Tag.gaps t)).
Proof.
  unfold Tag.quote_template, Tag.pieces_of, Tag.args_of, quote.
  cbn [nth_error]. now rewrite quote_loop_compile.
Qed.

End QuoteProperties.

(** An empty array takes away exactly one character when a space is next to
    it, and none otherwise. *)
Lemma absorb_space_length (acc p : string) :
  String.length (Words.absorb_space acc p)
  = String.length acc + String.length p
    - (if first_is space p || last_is space acc then 1 else 0).
Proof.
  assert (L : forall s, last_is space s = true ->
                        S (String.length (substring_to_last s)) = String.length s).
  { induction s as [|a [|b r] IH]; intros H; [discriminate|reflexivity|].
    change (substring_to_last (String a (String b r)))
      with (String a (substring_to_last (String b r))).
    change (last_is space (String b r) = true) in H. specialize (IH H).
    cbn [String.length] in *. lia. }
  unfold Words.absorb_space.
  destruct (first_is space p) eqn:F.
  - destruct p as [|c p']; [discriminate|]. simpl.
    rewrite length_append. simpl. lia.
  - destruct (last_is space acc) eqn:E; simpl; rewrite length_append.
    + specialize (L acc E). lia.
    + lia.
Qed.

(** ** Tag functions *)

Import Effects Tag.
Local Open Scope effects_scope.

Lemma bind_assoc {W A B C : Type} (m : M W A) (f : A -> M W B) (g : B -> M W C)
  (w : W) :
  bind (bind m f) g w = bind m (fun a => bind (f a) g) w.
Proof. unfold bind. destruct (m w) as [w' [a|e]]; reflexivity. Qed.

Lemma bind_ext {W A B : Type} (m : M W A) (f g : A -> M W B) (w : W) :
  (forall a w', f a w' = g a w') -> bind m f w = bind m g w.
Proof. intros H. unfold bind. destruct (m w) as [w' [a|e]]; auto. Qed.

Lemma bind_ext_l {W A B : Type} (m1 m2 : M W A) (k : A -> M W B) (w : W) :
  m1 w = m2 w -> bind m1 k w = bind m2 k w.
Proof. intros H. unfold bind. now rewrite H. Qed.

Lemma try_finally_ext {W A : Type} (b1 b2 : M W A) (f1 f2 : M W unit) (w : W) :
  (forall w', b1 w' = b2 w') -> (forall w', f1 w' = f2 w') ->
  try_finally b1 f1 w = try_finally b2 f2 w.
Proof.
  intros Hb Hf. unfold try_finally. rewrite Hb.
  destruct (b2 w) as [w1 r]. now rewrite Hf.
Qed.

Lemma run_finalizers_app {W : Type} (fs gs : list (option (M W unit))) (w : W) :
  run_finalizers (fs ++ gs)%list w
  = (run_finalizers fs ;;; run_finalizers gs) w.
Proof.
  revert w. induction fs as [|f fs IH]; intros w; simpl.
  - reflexivity.
  - rewrite bind_assoc. apply bind_ext. intros _ w'. apply IH.
Qed.

Lemma run_finalizers_last {W : Type} (fs : list (option (M W unit)))
  (f : option (M W unit)) (w : W) :
  run_finalizers (fs ++ [f])%list w
  = (run_finalizers fs ;;; call_optional f) w.
Proof.
  rewrite run_finalizers_app. apply bind_ext. intros _ w'. simpl.
  unfold bind. destruct (call_optional f w') as [w2 [[]|e]]; reflexivity.
Qed.

(** C5, as amended. With [A] attached first and [B] second, an invocation
    applies [B]'s [pre] to the compiled command, then [A]'s [pre] to the
    outcome, executes, and then applies [A]'s [post] and after it [B]'s. *)
Theorem map_map_order {W V T U X : Type} (String_ : V -> string)
  (ff : TagFunction W V T) (A : MapParameters W T U) (B : MapParameters W U X)
  (t : Template V) (w : W) :
  call (map String_ (map String_ ff A) B) t w
  = try_finally
      (q <- quote_template String_ t ;;
       cB <- apply_pre B q ;;
       cA <- apply_pre A cB ;;
       r <- exec_of ff cA ;;
       rA <- post A r ;;
       post B rA)
      (run_finalizers (finalizers_of ff) ;;;
       call_optional (finalize A) ;;;
       call_optional (finalize B)) w.
Proof.
  cbn [map call wrapTagFunction exec_of finalizers_of].
  apply try_finally_ext; intros w'.
  - apply bind_ext. intros q w1. apply bind_ext. intros cB w2.
    rewrite bind_assoc. apply bind_ext. intros cA w3.
    rewrite bind_assoc. reflexivity.
  - rewrite <- bind_assoc. apply bind_ext_l. apply run_finalizers_last.
Qed.

Import Sample.

(** The chain of the example, three layers deep. *)
Example sh_1_2_3_console :
  call sh_1_2_3 echo_hello []
  = (["PRE 3"; "PRE 2"; "PRE 1"; "EXEC echo 'Hello, world' #3 #2 #1";
      "POST 1"; "POST 2"; "POST 3"; "FINALIZE 1"; "FINALIZE 2"; "FINALIZE 3"],
     Return "echo 'Hello, world' #3 #2 #1").
Proof. reflexivity. Qed.

(** C5, as stated, fails: with [A] attached before [B], [A]'s [pre] does not
    run before [B]'s, and [B]'s [post] does not run before [A]'s; the command
    executed carries [B]'s mark inside [A]'s. *)
Lemma map_map_order_as_stated_fails :
  call sh_A_B echo_hello []
  = (["PRE B"; "PRE A"; "EXEC echo 'Hello, world' #B #A"; "POST A"; "POST B";
      "FINALIZE A"; "FINALIZE B"],
     Return "echo 'Hello, world' #B #A")
  /\ precedes "PRE A" "PRE B" (fst (call sh_A_B echo_hello [])) = false
  /\ precedes "POST B" "POST A" (fst (call sh_A_B echo_hello [])) = false.
Proof. repeat split; reflexivity. Qed.


Lemma finalize_all_last {W : Type} (fs : list (option (M W unit)))
  (f : option (M W unit)) (w : W) :
  Words.finalize_all (fs ++ [f])%list w
  = fst (call_optional f (Words.finalize_all fs w)).
Proof. unfold Words.finalize_all. now rewrite fold_left_app. Qed.





(** ** The executors *)

Import Exec.

(** C9 on [execOpt]: spawn, the write of a payload, the close of the input
    stream and the collection of the output are attempted in this order, up
    to the first one that the host refuses; the output is never collected
    before the payload is written and the stream closed. *)
Lemma execOpt_stdin_order (h : Host) (opt : ShellOptions) (cmd : string)
  (w : Proc) :
  let ops :=
    Spawn (nullish (shell opt) "/bin/bash")
      (nullish (shellArgs opt) ["-c"] ++ [cmd])%list
      (nullish (env opt) (host_env h))
    :: match stdin opt with
       | Some payload => [StdinWrite (stdin_bytes h payload)]
       | None => []
       end ++ [StdinClose; Output] in
  exists k,
    k < List.length ops
    /\ (forall i, i < k ->
        refuses h (w ++ firstn i ops) (nth i ops Output) = None)
    /\ fst (execOpt h opt cmd w) = (w ++ firstn (S k) ops)%list
    /\ match refuses h (w ++ firstn k ops) (nth k ops Output) with
       | Some e => snd (execOpt h opt cmd w) = Throw e
       | None =>
           S k = List.length ops
           /\ exists r, snd (execOpt h opt cmd w) = Return r /\ bin_cmd r = cmd
       end.
Proof.
  intros ops. subst ops.
  unfold execOpt, bind, attempt, ask, ret.
  destruct (stdin opt) as [payload|]; cbn [app List.length].
  - destruct (refuses h w _) eqn:E0.
    { exists 0. cbn [firstn nth]. rewrite app_nil_r, E0.
      repeat split; [lia | intros i Hi; lia]. }
    destruct (refuses h (w ++ [_]) (StdinWrite _)) eqn:E1.
    { exists 1. cbn [firstn nth]. rewrite E1, <- !app_assoc.
      repeat split; [lia|].
      intros i Hi. assert (i = 0) as -> by lia.
      cbn [firstn nth]. now rewrite app_nil_r. }
    destruct (refuses h ((w ++ [_]) ++ [_]) StdinClose) eqn:E2.
    { exists 2. cbn [firstn nth]. rewrite <- !app_assoc in *.
      cbn [app] in *. rewrite E2.
      repeat split; [lia|].
      intros i Hi. destruct i as [|[|i]]; cbn [firstn nth];
        [now rewrite app_nil_r | exact E1 | lia]. }
    destruct (refuses h (((w ++ [_]) ++ [_]) ++ [_]) Output) eqn:E3.
    { exists 3. cbn [firstn nth]. rewrite <- !app_assoc in *.
      cbn [app] in *. rewrite E3.
      repeat split; [lia|].
      intros i Hi. destruct i as [|[|[|i]]]; cbn [firstn nth];
        [now rewrite app_nil_r | exact E1 | exact E2 | lia]. }
    exists 3. cbn [firstn nth]. rewrite <- !app_assoc in *.
    cbn [app] in *. rewrite E3.
    repeat split; [lia | | eexists; split; reflexivity].
    intros i Hi. destruct i as [|[|[|i]]]; cbn [firstn nth];
      [now rewrite app_nil_r | exact E1 | exact E2 | lia].
  - destruct (refuses h w _) eqn:E0.
    { exists 0. cbn [firstn nth]. rewrite app_nil_r, E0.
      repeat split; [lia | intros i Hi; lia]. }
    destruct (refuses h (w ++ [_]) StdinClose) eqn:E1.
    { exists 1. cbn [firstn nth]. rewrite E1, <- !app_assoc.
      repeat split; [lia|].
      intros i Hi. assert (i = 0) as -> by lia.
      cbn [firstn nth]. now rewrite app_nil_r. }
    destruct (refuses h ((w ++ [_]) ++ [_]) Output) eqn:E2.
    { exists 2. cbn [firstn nth]. rewrite <- !app_assoc in *.
      cbn [app] in *. rewrite E2.
      repeat split; [lia|].
      intros i Hi. destruct i as [|[|i]]; cbn [firstn nth];
        [now rewrite app_nil_r | exact E1 | lia]. }
    exists 2. cbn [firstn nth]. rewrite <- !app_assoc in *.
    cbn [app] in *. rewrite E2.
    repeat split; [lia | | eexists; split; reflexivity].
    intros i Hi. destruct i as [|[|i]]; cbn [firstn nth];
      [now rewrite app_nil_r | exact E1 | lia].
Qed.

Lemma execOpt_events_stdin (h : Host) (payload : Stdin) (cmd : string) (w : Proc) :
  obliging h ->
  fst (execOpt h (SampleAction.with_stdin payload) cmd w)
  = (w ++ [Spawn "/bin/bash" ["-c"; cmd] (host_env h);
           StdinWrite (stdin_bytes h payload);
           StdinClose;
           Output])%list.
Proof.
  intros Hh. unfold execOpt, bind, attempt, ask, ret. simpl.
  rewrite !Hh. simpl. now rewrite <- !app_assoc.
Qed.

Lemma execOpt_events_no_stdin (h : Host) (cmd : string) (w : Proc) :
  obliging h ->
  fst (execOpt h SampleAction.no_options cmd w)
  = (w ++ [Spawn "/bin/bash" ["-c"; cmd] (host_env h);
           StdinClose;
           Output])%list.
Proof.
  intros Hh. unfold execOpt, bind, attempt, ask, ret. simpl.
  rewrite !Hh. simpl. now rewrite <- !app_assoc.
Qed.

(** C9 fails on [shOptBin]: the status and both outputs are awaited first,
    the payload is written only afterwards, and the input stream is never
    closed on its own. *)
Theorem shOptBin_stdin_after_output (h : Host) (payload : Stdin) (cmd : string)
  (w : Proc) :
  fst (shOptBin h (SampleAction.with_stdin payload) cmd w)
  = (w ++ [Spawn "/bin/bash" ["-c"; cmd] (host_env h);
           Status; StdoutRead; StderrRead;
           StdinWrite (stdin_bytes h payload);
           Close])%list.
Proof.
  unfold shOptBin, bind, act, ask, ret. simpl.
  now rewrite <- !app_assoc.
Qed.

(** [shOptBin({ stdin: "data" })] on the command [cat]. *)
Example shOptBin_cat_example (h : Host) :
  fst (shOptBin h (SampleAction.with_stdin (StdinText "data")) "cat" [])
  = [Spawn "/bin/bash" ["-c"; "cat"] (host_env h);
     Status; StdoutRead; StderrRead;
     StdinWrite (encode h "data");
     Close].
Proof. reflexivity. Qed.

Example execOpt_cat_example (h : Host) :
  obliging h ->
  fst (execOpt h (SampleAction.with_stdin (StdinText "data")) "cat" [])
  = [Spawn "/bin/bash" ["-c"; "cat"] (host_env h);
     StdinWrite (encode h "data");
     StdinClose;
     Output].
Proof.
  intros Hh.
  apply (execOpt_events_stdin h (StdinText "data") "cat" [] Hh).
Qed.

(** ** Actions *)

Import Action.

Lemma truthy_verbosity (v : Verbosity) : truthy (verbosity_text v) = true.
Proof. destruct v; reflexivity. Qed.

Lemma filter_fresh (l : list (nat * Q)) (n : nat) :
  Forall (fun t => fst t < n) l ->
  List.filter (fun t => negb (Nat.eqb (fst t) n)) l = l.
Proof.
  induction 1 as [|t l Ht _ IH]; [reflexivity|]. simpl.
  destruct (Nat.eqb_spec (fst t) n) as [E|_]; [lia|]. simpl. now rewrite IH.
Qed.

Lemma disarm_fresh (l : list (nat * Q)) (n : nat) (d : Q) :
  Forall (fun t => fst t < n) l ->
  List.filter (fun t => negb (Nat.eqb (fst t) n)) (l ++ [(n, d)])%list = l.
Proof.
  intros H. rewrite filter_app, filter_fresh by exact H. simpl.
  rewrite Nat.eqb_refl. simpl. apply app_nil_r.
Qed.


Section ActionProperties.
Context {T : Type}.
Variables (dc : Config) (label : string) (f : Work T) (config : option Config).







(** C8 fails on [action]: the work is called without an argument, so work
    that would stop on a signal fares like work that knows of none, also when
    the timer fires first. *)
Theorem action_passes_no_signal (g : Work T) (w : World) :
  f None = g None ->
  action dc label f config w = action dc label g config w.
Proof.
  intros E. unfold action. rewrite E. reflexivity.
Qed.

End ActionProperties.

Import SampleAction.




Lemma action_passes_no_signal_witness :
  loop_until_aborted None = CallReturns NeverSettles
  /\ action defaultConfig "This action will timeout" loop_until_aborted
       (Some config_1_2) world0
     = action defaultConfig "This action will timeout"
         (fun _ => CallReturns NeverSettles) (Some config_1_2) world0.
Proof.
  split; [reflexivity|].
  apply (action_passes_no_signal defaultConfig "This action will timeout"
           loop_until_aborted (Some config_1_2)
           (fun _ => CallReturns NeverSettles) world0).
  reflexivity.
Defined.


(** The action of the example that times out: the work is given no signal,
    never settles, and the caller gets the [TimeoutError]. *)
Example action_timeout_example :
  action defaultConfig "This action will timeout" loop_until_aborted
    (Some config_1_2) world0
  = ({| console := [LabelLine "This action will timeout"; TagLine "TIMEOUT" true];
        armed := [];
        next_timer := 1 |},
     Throw TimeoutError).
Proof. reflexivity. Qed.

Example action_ok_example :
  action defaultConfig "build" done_after_2s None world0
  = ({| console := [LabelLine "build"; TagLine "OK" true];
        armed := [];
        next_timer := 1 |},
     Return (Some 7)).
Proof. reflexivity. Qed.

Example action_skipped_example :
  action defaultConfig "deploy" skipped_after_2s None world0
  = ({| console := [LabelLine "deploy"; TagLine "SKIPPED" true];
        armed := [];
        next_timer := 1 |},
     Return None).
Proof. reflexivity. Qed.

(** * Further properties *)

(** ** Quoting *)

Lemma dequote_length (s : string) :
  forall (st : quoting) (t : string),
    dequote st s = Some t -> String.length t <= String.length s.
Proof.
  induction s as [|c r IH]; intros st t H.
  - destruct st; simpl in H; inversion H. simpl. lia.
  - destruct st; simpl in H;
      repeat match type of H with
             | (if ?b then _ else _) = _ => destruct b
             end;
      try discriminate;
      try (apply IH in H; simpl; lia);
      unfold emit in H;
      match type of H with
      | match ?d with _ => _ end = _ => destruct d eqn:E; [|discriminate]
      end;
      inversion H; subst; apply IH in E; simpl; lia.
Qed.

Lemma dequote_Bare_fixed (s : string) :
  dequote Bare s = Some s -> all_safe s = true.
Proof.
  induction s as [|c r IH]; intros H; [reflexivity|].
  simpl in H.
  destruct (Ascii.eqb c squote).
  { apply dequote_length in H. simpl in H. lia. }
  destruct (Ascii.eqb c dquote).
  { apply dequote_length in H. simpl in H. lia. }
  destruct (safeShellChar c) eqn:Hc; [|discriminate].
  unfold emit in H. destruct (dequote Bare r) eqn:E; [|discriminate].
  inversion H; subst. simpl. rewrite Hc. now apply IH.
Qed.

(** X1. [quoteString] never gives the empty text and never a text shorter
    than its input. *)
Theorem quoteString_length_lower (s : string) :
  1 <= String.length (quoteString s)
  /\ String.length s <= String.length (quoteString s).
Proof.
  split.
  - pose proof (quoteString_nonempty s) as N.
    destruct (quoteString s); [congruence | simpl; lia].
  - apply (dequote_length _ Bare). apply dequote_quoteString.
Qed.

(** X2. [quoteString] gives different tokens for different texts. *)
Theorem quoteString_injective (a b : string) :
  quoteString a = quoteString b -> a = b.
Proof.
  intros E. pose proof (dequote_quoteString a) as Ha.
  rewrite E, dequote_quoteString in Ha. now inversion Ha.
Qed.

Lemma quoteString_injective_witness :
  quoteString "a b" = quoteString "a b" /\ "a b" = "a b".
Proof.
  split; [reflexivity|].
  apply (quoteString_injective "a b" "a b"). reflexivity.
Defined.

(** X3. [quoteString] leaves a text as it is exactly when the text is
    non-empty and made of safe characters. *)
Theorem quoteString_unchanged_iff (s : string) :
  quoteString s = s <-> safeShellCharsRE_test s = true.
Proof.
  split.
  - intros E. pose proof (dequote_quoteString s) as D. rewrite E in D.
    pose proof (quoteString_nonempty s) as N. rewrite E in N.
    destruct s as [|c r]; [congruence|].
    unfold safeShellCharsRE_test. now apply dequote_Bare_fixed.
  - intros H. unfold quoteString.
    destruct s as [|c r]; [discriminate|]. cbn [not_]. now rewrite H.
Qed.

Lemma replace_leading_pair_length (s : string) :
  String.length (replace_leading_pair s) <= String.length s.
Proof.
  destruct s as [|a [|b r]]; simpl; try lia.
  destruct (Ascii.eqb a squote && Ascii.eqb b squote); simpl; lia.
Qed.

Lemma replace_trailing_pair_length (s : string) :
  String.length (replace_trailing_pair s) <= String.length s.
Proof.
  induction s as [|a r IH]; [simpl; lia|].
  rewrite replace_trailing_pair_cons.
  destruct (String.eqb _ _); simpl; lia.
Qed.

Lemma replace_singleQuoteSpan_length (s : string) :
  String.length (replace_singleQuoteSpan requote_span s) <= 5 * String.length s.
Proof.
  funelim (replace_singleQuoteSpan requote_span s).
  - simpl. lia.
  - destruct (singleQuoteSpanRE_match_Some _ _ _ Hm) as (E & _ & Hne & _).
    rewrite E. unfold requote_span at 1.
    repeat (rewrite !length_append; cbn [String.length SQ DQ]).
    destruct m as [|a m']; [congruence|]. cbn [String.length] in *. lia.
  - cbn [String.length]. lia.
Qed.

(** X4. Quoting makes a text at most five times as long, plus the two
    outer quotes. *)
Theorem quoteString_length_upper (s : string) :
  String.length (quoteString s) <= 5 * String.length s + 2.
Proof.
  unfold quoteString.
  destruct (not_ s); [simpl; lia|].
  destruct (safeShellCharsRE_test s); [lia|]. cbv zeta.
  eapply Nat.le_trans; [apply replace_trailing_pair_length|].
  eapply Nat.le_trans; [apply replace_leading_pair_length|].
  rewrite !length_append. cbn [String.length SQ].
  pose proof (replace_singleQuoteSpan_length s). lia.
Qed.

(** ** Whole command lines *)

Import ShellWords.

Lemma space_not_word_char :
  Ascii.eqb space squote = false /\ Ascii.eqb space dquote = false
  /\ safeShellChar space = false.
Proof. repeat split; reflexivity. Qed.

(** A text that [dequote] reads as [t] adds [t] to the word under way. *)
Lemma split_dequote (s : string) :
  forall (st : quoting) (w t k : string),
    dequote st s = Some t ->
    split st (Some w) (s ++ k) = split Bare (Some (w ++ t)) k.
Proof.
  induction s as [|c r IH]; intros st w t k H.
  - destruct st; simpl in H; inversion H. simpl. now rewrite append_nil_r.
  - change (String c r ++ k) with (String c (r ++ k)).
    destruct st; cbn [split dequote] in *.
    + destruct (Ascii.eqb_spec c space) as [->|_].
      { destruct space_not_word_char as (E1 & E2 & E3).
        rewrite E1, E2, E3 in H. discriminate. }
      destruct (Ascii.eqb c squote); [now apply IH|].
      destruct (Ascii.eqb c dquote); [now apply IH|].
      destruct (safeShellChar c); [|discriminate].
      unfold emit in H. destruct (dequote Bare r) as [t'|] eqn:E; [|discriminate].
      inversion H; subst. unfold push. cbn [sofar].
      rewrite (IH Bare _ t' k E), append_assoc. reflexivity.
    + destruct (Ascii.eqb c squote); [now apply IH|].
      unfold emit in H.
      destruct (dequote InSingle r) as [t'|] eqn:E; [|discriminate].
      inversion H; subst. unfold push. cbn [sofar].
      rewrite (IH InSingle _ t' k E), append_assoc. reflexivity.
    + destruct (Ascii.eqb c dquote); [now apply IH|].
      destruct (special_in_double c); [discriminate|].
      unfold emit in H.
      destruct (dequote InDouble r) as [t'|] eqn:E; [|discriminate].
      inversion H; subst. unfold push. cbn [sofar].
      rewrite (IH InDouble _ t' k E), append_assoc. reflexivity.
Qed.

(** A quoted value opens a word of its own and fills it with the value. *)
Lemma split_quoteString (v k : string) :
  split Bare None (quoteString v ++ k) = split Bare (Some v) k.
Proof.
  pose proof (dequote_quoteString v) as D.
  pose proof (quoteString_nonempty v) as N.
  destruct (quoteString v) as [|c q] eqn:E; [congruence|].
  transitivity (split Bare (Some EmptyString) (String c q ++ k));
    [|now rewrite (split_dequote (String c q) Bare EmptyString v k D)].
  change (String c q ++ k) with (String c (q ++ k)).
  cbn [split dequote] in *.
  destruct (Ascii.eqb_spec c space) as [->|_].
  { destruct space_not_word_char as (E1 & E2 & E3).
    rewrite E1, E2, E3 in D. discriminate. }
  reflexivity.
Qed.

Lemma tokenize_blank (k : string) :
  first_is space k = true -> tokenize k = tokenize (substring_from_1 k).
Proof.
  destruct k as [|c k']; [discriminate|]. simpl. intros H.
  unfold tokenize. cbn [split]. now rewrite H.
Qed.

Lemma split_word_end (v k : string) :
  k = EmptyString \/ first_is space k = true ->
  split Bare (Some v) k = option_map (cons v) (tokenize k).
Proof.
  intros [->|H]; [reflexivity|].
  destruct k as [|c k']; [discriminate|]. simpl in H.
  unfold tokenize. cbn [split]. now rewrite H.
Qed.

Section CommandWords.
Context {V : Type}.
Variable String_ : V -> string.

Lemma split_joined (vs : list V) (k : string) :
  vs <> [] ->
  k = EmptyString \/ first_is space k = true ->
  tokenize (joined String_ vs ++ k)
  = option_map (app (List.map String_ vs)) (tokenize k).
Proof.
  unfold tokenize, joined.
  induction vs as [|v vs IH]; [congruence|]. intros _ Hk.
  destruct vs as [|v' vs'].
  - cbn [List.map join]. rewrite split_quoteString, split_word_end by exact Hk.
    unfold tokenize. destruct (split Bare None k); reflexivity.
  - change (join " " (List.map (fun v0 => quoteString (String_ v0)) (v :: v' :: vs')))
      with (quoteString (String_ v) ++ " "
            ++ join " " (List.map (fun v0 => quoteString (String_ v0)) (v' :: vs'))).
    rewrite !append_assoc, split_quoteString.
    cbn [split append]. change (Ascii.eqb " " space) with true. cbv iota.
    rewrite IH by (auto; discriminate).
    destruct (split Bare None k); reflexivity.
Qed.

End CommandWords.

Lemma option_map_app_nil {A : Type} (x : option (list A)) :
  option_map (app []) x = x.
Proof. destruct x; reflexivity. Qed.

(** A line that ends with a blank outside quotes has closed its last word:
    what follows starts afresh, and the blank itself adds nothing. *)
Lemma split_blank_end (p : string) :
  forall (st : quoting) (cur : option string) (ws : list string),
    split st cur (p ++ " ") = Some ws ->
    (forall k, split st cur ((p ++ " ") ++ k)
               = option_map (app ws) (split Bare None k))
    /\ split st cur p = Some ws.
Proof.
  induction p as [|c r IH]; intros st cur ws H.
  - destruct st; [|discriminate H|discriminate H].
    destruct cur as [w|]; simpl in H; inversion H; subst; split;
      try reflexivity; intros k; simpl;
      destruct (split Bare None k); reflexivity.
  - change (String c r ++ " ") with (String c (r ++ " ")) in *.
    change (String c (r ++ " ") ++ ?k) with (String c ((r ++ " ") ++ k)).
    destruct st; cbn [split] in *.
    + destruct (Ascii.eqb c space).
      * destruct cur as [w|]; [|now apply IH].
        destruct (split Bare None (r ++ " ")) as [ws'|] eqn:E; [|discriminate].
        inversion H; subst. destruct (IH _ _ _ E) as [I1 I2].
        split; [|now rewrite I2].
        intros k. rewrite I1. destruct (split Bare None k); reflexivity.
      * destruct (Ascii.eqb c squote); [now apply IH|].
        destruct (Ascii.eqb c dquote); [now apply IH|].
        destruct (safeShellChar c); [now apply IH|discriminate].
    + destruct (Ascii.eqb c squote); now apply IH.
    + destruct (Ascii.eqb c dquote); [now apply IH|].
      destruct (special_in_double c); [discriminate|now apply IH].
Qed.

Lemma last_is_split (c : ascii) (s : string) :
  last_is c s = true -> s = substring_to_last s ++ String c EmptyString.
Proof.
  induction s as [|a [|b r] IH]; intros H; [discriminate| |].
  - simpl in H. apply Ascii.eqb_eq in H. now subst.
  - change (last_is c (String b r) = true) in H.
    change (substring_to_last (String a (String b r)))
      with (String a (substring_to_last (String b r))).
    change (String a (substring_to_last (String b r)) ++ String c EmptyString)
      with (String a (substring_to_last (String b r) ++ String c EmptyString)).
    f_equal. now apply IH.
Qed.

Lemma last_is_append (c : ascii) (a b : string) :
  b <> EmptyString -> last_is c (a ++ b) = last_is c b.
Proof.
  intros Hb. induction a as [|x a IH]; [reflexivity|].
  change (String x a ++ b) with (String x (a ++ b)).
  destruct (a ++ b) as [|y t] eqn:E.
  - destruct a; [simpl in E; congruence | discriminate E].
  - rewrite <- IH. reflexivity.
Qed.

Lemma tokenize_append (acc k : string) (ws : list string) :
  ends_blank acc = true -> tokenize acc = Some ws ->
  tokenize (acc ++ k) = option_map (app ws) (tokenize k).
Proof.
  unfold ends_blank, tokenize. intros Hb Ht.
  destruct acc as [|a r].
  - inversion Ht; subst. simpl. now rewrite option_map_app_nil.
  - cbn [not_ orb] in Hb. apply last_is_split in Hb.
    rewrite Hb in Ht |- *.
    now destruct (split_blank_end _ _ _ _ Ht) as [I _].
Qed.

Lemma tokenize_without_blank (acc : string) (ws : list string) :
  last_is space acc = true -> tokenize acc = Some ws ->
  tokenize (substring_to_last acc) = Some ws.
Proof.
  unfold tokenize. intros Hb Ht. apply last_is_split in Hb.
  rewrite Hb in Ht. now destruct (split_blank_end _ _ _ _ Ht) as [_ I].
Qed.

Lemma begins_blank_cases (p : string) :
  begins_blank p = true -> p = EmptyString \/ first_is space p = true.
Proof.
  unfold begins_blank. destruct p as [|c r]; [now left|]. simpl. now right.
Qed.

Section TemplateWords.
Context {V : Type}.
Variable String_ : V -> string.

Lemma compile_cons (acc : string) (a : Argument V) (p : string)
  (rest : list (Argument V * string)) :
  Words.compile String_ acc ((a, p) :: rest)
  = Words.compile String_ (Words.compile String_ acc [(a, p)]) rest.
Proof. destruct a as [v|[|v vs]]; reflexivity. Qed.

Lemma quoted_argument_words (a : Argument V) (k : string) :
  a <> ArrayArg [] -> begins_blank k = true ->
  tokenize (Words.quoted_argument String_ a ++ k)
  = option_map (app (values String_ a)) (tokenize k).
Proof.
  intros Ha Hk. apply begins_blank_cases in Hk.
  destruct a as [v|vs]; cbn [Words.quoted_argument values].
  - unfold tokenize at 1. rewrite split_quoteString, split_word_end by exact Hk.
    destruct (tokenize k); reflexivity.
  - apply (split_joined String_ vs k); [congruence | exact Hk].
Qed.

Lemma step_words (acc : string) (a : Argument V) (p : string)
  (ws0 wp : list string) :
  ends_blank acc = true -> begins_blank p = true ->
  tokenize acc = Some ws0 -> tokenize p = Some wp ->
  tokenize (Words.compile String_ acc [(a, p)])
  = Some (ws0 ++ values String_ a ++ wp)%list.
Proof.
  intros Hacc Hp Tacc Tp.
  assert (General : a <> ArrayArg [] ->
            tokenize (acc ++ Words.quoted_argument String_ a ++ p)
            = Some (ws0 ++ values String_ a ++ wp)%list).
  { intros Ha. rewrite (tokenize_append _ _ _ Hacc Tacc).
    rewrite (quoted_argument_words a p Ha Hp), Tp. reflexivity. }
  destruct a as [v|[|v vs]]; cbn [Words.compile];
    try (apply General; discriminate).
  cbn [values app]. unfold Words.absorb_space.
  destruct (first_is space p) eqn:F.
  - rewrite (tokenize_append _ _ _ Hacc Tacc), <- tokenize_blank, Tp by exact F.
    reflexivity.
  - apply begins_blank_cases in Hp as [->|Hp]; [|congruence].
    inversion Tp; subst wp. rewrite app_nil_r.
    destruct (last_is space acc) eqn:L; rewrite append_nil_r; [|exact Tacc].
    now apply tokenize_without_blank.
Qed.

Lemma step_ends_blank (acc : string) (a : Argument V) (p : string) :
  ends_blank acc = true ->
  first_is space p = true -> last_is space p = true ->
  ends_blank (Words.compile String_ acc [(a, p)]) = true.
Proof.
  intros Hacc F L.
  assert (Hp : p <> EmptyString) by (destruct p; [discriminate|congruence]).
  assert (General :
            ends_blank (acc ++ Words.quoted_argument String_ a ++ p) = true).
  { unfold ends_blank. rewrite <- append_assoc, last_is_append, L by exact Hp.
    apply orb_true_r. }
  destruct a as [v|[|v vs]]; cbn [Words.compile]; try exact General.
  unfold Words.absorb_space. rewrite F.
  destruct p as [|c [|d r]]; [congruence| |].
  - simpl. now rewrite append_nil_r.
  - cbn [substring_from_1]. unfold ends_blank.
    rewrite last_is_append by discriminate.
    change (last_is space (String c (String d r)))
      with (last_is space (String d r)) in L.
    rewrite L. apply orb_true_r.
Qed.

Lemma compile_words (gaps : list (Argument V * string)) :
  forall (acc : string) (ws0 more : list string),
    ends_blank acc = true -> set_off gaps = true ->
    tokenize acc = Some ws0 -> gap_words String_ gaps = Some more ->
    tokenize (Words.compile String_ acc gaps) = Some (ws0 ++ more)%list.
Proof.
  induction gaps as [|[a p] rest IH]; intros acc ws0 more Hacc Hset Tacc Hw.
  - simpl in *. inversion Hw; subst. now rewrite app_nil_r.
  - cbn [gap_words] in Hw.
    destruct (tokenize p) as [wp|] eqn:Tp; [|discriminate].
    destruct (gap_words String_ rest) as [more'|] eqn:Hrest; [|discriminate].
    inversion Hw; subst more. rewrite compile_cons.
    destruct rest as [|g rest'].
    + cbn [set_off] in Hset. simpl in Hrest. inversion Hrest; subst more'.
      cbn [Words.compile]. rewrite app_nil_r.
      now apply step_words.
    + cbn [set_off] in Hset.
      apply andb_prop in Hset as [Hfl Hset].
      apply andb_prop in Hfl as [F L].
      rewrite (IH _ (ws0 ++ values String_ a ++ wp)%list more').
      * now rewrite <- !app_assoc.
      * now apply step_ends_blank.
      * exact Hset.
      * apply step_words; auto. unfold begins_blank. rewrite F.
        apply orb_true_r.
      * reflexivity.
Qed.

(** X5. For a template that sets its values off by blanks, the shell reads
    the command [quote] compiles as the words of the literal fragments and
    the interpolated values, each value one word and each array element one
    word, in template order. *)
Theorem quote_command_words (p0 : string) (gaps : list (Argument V * string))
  (ws0 more : list string) :
  ends_blank p0 = true -> set_off gaps = true ->
  tokenize p0 = Some ws0 -> gap_words String_ gaps = Some more ->
  exists command,
    quote String_ (p0 :: List.map snd gaps) (List.map fst gaps)
    = Return (Some command)
    /\ tokenize command = Some (ws0 ++ more)%list.
Proof.
  intros Hacc Hset Tacc Hw.
  exists (Words.compile String_ p0 gaps). split.
  - unfold quote. cbn [nth_error]. now apply quote_loop_compile.
  - now apply compile_words.
Qed.

(** The text [quote] puts in for an array reads back as the elements of
    the array, one word each; for the empty array it is no word at all. *)
Lemma joined_words (vs : list V) :
  tokenize (joined String_ vs) = Some (List.map String_ vs).
Proof.
  destruct vs as [|v vs]; [reflexivity|].
  rewrite <- (append_nil_r (joined String_ (v :: vs))).
  rewrite split_joined by (try discriminate; now left).
  change (tokenize EmptyString) with (Some (@nil string)).
  cbn [option_map]. now rewrite app_nil_r.
Qed.

End TemplateWords.

Lemma quote_command_words_witness :
  ends_blank "start-server " = true
  /\ set_off [(ArrayArg ["-name"; "Jane Jones"], " --log "); (Scalar "a'b", "")]
     = true
  /\ tokenize "start-server " = Some ["start-server"]
  /\ gap_words Sample.String_
       [(ArrayArg ["-name"; "Jane Jones"], " --log "); (Scalar "a'b", "")]
     = Some ["-name"; "Jane Jones"; "--log"; "a'b"]
  /\ exists command,
       quote Sample.String_ ["start-server "; " --log "; ""]
         [ArrayArg ["-name"; "Jane Jones"]; Scalar "a'b"]
       = Return (Some command)
       /\ tokenize command
          = Some ["start-server"; "-name"; "Jane Jones"; "--log"; "a'b"].
Proof.
  repeat (split; [reflexivity|]).
  apply (quote_command_words Sample.String_ "start-server "
           [(ArrayArg ["-name"; "Jane Jones"], " --log "); (Scalar "a'b", "")]
           ["start-server"] ["-name"; "Jane Jones"; "--log"; "a'b"]);
    reflexivity.
Defined.

(** ** The older [quoteString] and [quote] *)

Lemma quoteString_old_nonempty (s : string) :
  s <> EmptyString -> ModOld.quoteString s = quoteString s.
Proof. destruct s; [congruence | reflexivity]. Qed.

(** X6. The older [quoteString] reads back as its input exactly when the
    input is not empty: the empty text comes out as no word at all. *)
Theorem quoteString_old_roundtrip_iff (s : string) :
  tokenize_single (ModOld.quoteString s) = Some s <-> s <> EmptyString.
Proof.
  split.
  - intros H ->. discriminate H.
  - intros Hs. rewrite quoteString_old_nonempty by exact Hs.
    unfold tokenize_single.
    pose proof (quoteString_nonempty s) as N.
    destruct (quoteString s) eqn:E; [congruence|].
    rewrite <- E. apply dequote_quoteString.
Qed.

Section QuoteOld.
Context {V : Type}.
Variable String_ : V -> string.

Lemma solid_texts (vs : list V) :
  forallb (fun v => negb (not_ (String_ v))) vs = true ->
  List.map (fun v => ModOld.quoteString (String_ v)) vs
  = List.map (fun v => quoteString (String_ v)) vs.
Proof.
  induction vs as [|v vs IH]; [reflexivity|]. simpl. intros H.
  apply andb_prop in H as [Hv Hvs]. rewrite IH by exact Hvs.
  rewrite quoteString_old_nonempty; [reflexivity|].
  intros E. rewrite E in Hv. discriminate Hv.
Qed.

Lemma quote_loop_old (pieces : list string) (args : list (Argument V)) :
  forallb (ModOld.solid String_) args = true ->
  forall (i : nat) (result : option string),
    quote_loop String_ pieces i result args
    = Return (ModOld.quote_loop String_ pieces i result args).
Proof.
  induction args as [|a args IH]; intros H i result; [reflexivity|].
  simpl in H. apply andb_prop in H as [Ha Hargs].
  cbn [quote_loop ModOld.quote_loop].
  destruct a as [v|vs]; cbn [ModOld.solid] in Ha.
  - rewrite IH by exact Hargs.
    rewrite quoteString_old_nonempty; [reflexivity|].
    intros E. rewrite E in Ha. discriminate Ha.
  - apply andb_prop in Ha as [Hne Hvs].
    rewrite join_quoted_length.
    destruct vs as [|v vs]; [discriminate Hne|].
    rewrite IH by exact Hargs.
    now rewrite (solid_texts _ Hvs).
Qed.

(** X7. On values that hold no empty text and no empty array, the older
    [quote] and the newer one compile the same command, whatever the
    fragments. *)
Theorem quote_old_agrees (pieces : list string) (args : list (Argument V)) :
  forallb (ModOld.solid String_) args = true ->
  quote String_ pieces args = Return (ModOld.quote String_ pieces args).
Proof.
  intros H. unfold quote, ModOld.quote. now apply quote_loop_old.
Qed.

End QuoteOld.

Lemma quote_old_agrees_witness :
  forallb (ModOld.solid Sample.String_)
    [ArrayArg ["5"; "true"; "-v"; "this is a sentence"]] = true
  /\ quote Sample.String_ ["command "; ""]
       [ArrayArg ["5"; "true"; "-v"; "this is a sentence"]]
     = Return (ModOld.quote Sample.String_ ["command "; ""]
                 [ArrayArg ["5"; "true"; "-v"; "this is a sentence"]]).
Proof.
  split; [reflexivity|].
  apply (quote_old_agrees Sample.String_ ["command "; ""]
           [ArrayArg ["5"; "true"; "-v"; "this is a sentence"]]).
  reflexivity.
Defined.

(** ** [writeAll] *)

Lemma firstn_plus {A : Type} (n m : nat) (l : list A) :
  firstn (n + m) l = (firstn n l ++ firstn m (skipn n l))%list.
Proof.
  revert l. induction n as [|n IH]; intros l; [reflexivity|].
  destruct l as [|x l]; simpl.
  - now rewrite firstn_nil.
  - now rewrite IH.
Qed.

Lemma writeAll_loop_complete (w : WriteAll.Writer) (arr : list Byte.byte) :
  WriteAll.progresses w ->
  forall (fuel calls nwritten : nat),
    nwritten <= List.length arr ->
    List.length arr - nwritten <= fuel ->
    exists calls',
      WriteAll.loop fuel w arr calls nwritten (firstn nwritten arr)
      = Some (calls', arr)
      /\ calls' <= calls + (List.length arr - nwritten).
Proof.
  intros Hw. induction fuel as [|fuel IH]; intros calls nwritten Hn Hf.
  - assert (nwritten = List.length arr) as -> by lia.
    exists calls. simpl. rewrite Nat.ltb_irrefl, firstn_all. split; [reflexivity|lia].
  - cbn [WriteAll.loop].
    destruct (Nat.ltb_spec nwritten (List.length arr)) as [Hlt|Hge].
    + assert (Hchunk : skipn nwritten arr <> []).
      { intros E. apply skipn_all_iff in E. lia. }
      pose proof (Hw calls _ Hchunk) as Hk.
      rewrite length_skipn in Hk.
      rewrite <- firstn_plus.
      destruct (IH (S calls) (nwritten + w calls (skipn nwritten arr)))
        as (calls' & E & Hc); [lia|lia|].
      exists calls'. split; [exact E|lia].
    + assert (nwritten = List.length arr) as -> by lia.
      exists calls. rewrite firstn_all. split; [reflexivity|lia].
Qed.

(** X8. With a writer that takes at least one byte of every chunk it is
    offered and never more than the chunk, [writeAll] comes to an end within
    as many calls as there are bytes, and the writer has then taken exactly
    the bytes of the array, in order. *)
Theorem writeAll_complete (w : WriteAll.Writer) (arr : list Byte.byte) :
  WriteAll.progresses w ->
  exists calls,
    WriteAll.writeAll (List.length arr) w arr = Some (calls, arr)
    /\ calls <= List.length arr.
Proof.
  intros Hw. unfold WriteAll.writeAll.
  destruct (writeAll_loop_complete w arr Hw (List.length arr) 0 0)
    as (calls & E & Hc); [lia|lia|].
  exists calls. split; [exact E|lia].
Qed.

Lemma writeAll_complete_witness :
  WriteAll.progresses WriteAll.two_at_a_time
  /\ exists calls,
       WriteAll.writeAll 5 WriteAll.two_at_a_time
         [Byte.x68; Byte.x65; Byte.x6c; Byte.x6c; Byte.x6f]
       = Some (calls, [Byte.x68; Byte.x65; Byte.x6c; Byte.x6c; Byte.x6f])
       /\ calls <= 5.
Proof.
  assert (H : WriteAll.progresses WriteAll.two_at_a_time).
  { intros n chunk Hc. unfold WriteAll.two_at_a_time.
    destruct chunk as [|b [|b' r]]; [congruence | simpl; lia | simpl; lia]. }
  split; [exact H|].
  exact (writeAll_complete WriteAll.two_at_a_time
           [Byte.x68; Byte.x65; Byte.x6c; Byte.x6c; Byte.x6f] H).
Defined.

(** ** Laws of [map] *)

Import TagLaws.

Lemma bind_ret_l {W A B : Type} (a : A) (k : A -> M W B) (w : W) :
  bind (ret a) k w = k a w.
Proof. reflexivity. Qed.

Lemma bind_ret_r {W A : Type} (m : M W A) (w : W) :
  bind m (fun a => ret a) w = m w.
Proof. unfold bind, ret. destruct (m w) as [w' [a|e]]; reflexivity. Qed.

Lemma bind_ret_tt {W : Type} (m : M W unit) (w : W) :
  bind m (fun _ => ret tt) w = m w.
Proof. unfold bind, ret. destruct (m w) as [w' [[]|e]]; reflexivity. Qed.

Lemma try_finally_ret {W A : Type} (body : M W A) (w : W) :
  try_finally body (ret tt) w = body w.
Proof. unfold try_finally, ret. destruct (body w); reflexivity. Qed.

(** X9. Mapping with a [post] that gives back what it is given, and no
    [pre] and no [finalize], changes nothing: the new tag function and its
    executor do in every world what the old ones do. *)
Theorem map_identity {W V T : Type} (String_ : V -> string) (c : Chain W V T)
  (t : Template V) (command : string) (w : W) :
  call (map String_ (build String_ c) (post_only (fun r => ret r))) t w
  = call (build String_ c) t w
  /\ exec_of (map String_ (build String_ c) (post_only (fun r => ret r)))
       command w
     = exec_of (build String_ c) command w.
Proof.
  split.
  - destruct c as [T exec | T U c p];
      cbn [build map plain call exec_of finalizers_of wrapTagFunction
             post_only pre post finalize apply_pre call_optional].
    + transitivity
        (try_finally (q <- quote_template String_ t ;; exec q) (ret tt) w);
        [|apply try_finally_ret].
      apply try_finally_ext; intros w1; [|reflexivity].
      apply bind_ext. intros q w2. rewrite bind_ret_l. apply bind_ret_r.
    + apply try_finally_ext; intros w1.
      * apply bind_ext. intros q w2. rewrite bind_ret_l. apply bind_ret_r.
      * rewrite bind_ret_tt. apply run_finalizers_last.
  - cbn [map exec_of wrapTagFunction post_only pre post apply_pre].
    rewrite bind_ret_l. apply bind_ret_r.
Qed.

(** X10. Two [.map] calls do what one [.map] call with the fused layer
    does: [B]'s [pre] and then [A]'s, [A]'s [post] and then [B]'s, [A]'s
    [finalize] and then [B]'s; so for the tag function and so for its
    executor. *)
Theorem map_fusion {W V T U X : Type} (String_ : V -> string)
  (ff : TagFunction W V T) (A : MapParameters W T U) (B : MapParameters W U X)
  (t : Template V) (command : string) (w : W) :
  call (map String_ (map String_ ff A) B) t w
  = call (map String_ ff (fuse A B)) t w
  /\ exec_of (map String_ (map String_ ff A) B) command w
     = exec_of (map String_ ff (fuse A B)) command w.
Proof.
  split.
  - cbn [map call exec_of finalizers_of wrapTagFunction].
    apply try_finally_ext; intros w1.
    + apply bind_ext. intros q w2.
      unfold apply_pre at 3. cbn [fuse pre post].
      rewrite !bind_assoc. apply bind_ext. intros cB w3.
      rewrite !bind_assoc. apply bind_ext. intros cA w4.
      rewrite !bind_assoc. reflexivity.
    + cbn [fuse finalize call_optional].
      rewrite (bind_ext_l _ _ _ _ (run_finalizers_last _ _ w1)).
      rewrite bind_assoc. reflexivity.
  - cbn [map exec_of wrapTagFunction].
    unfold apply_pre at 3. cbn [fuse pre post].
    rewrite !bind_assoc. apply bind_ext. intros cB w3.
    rewrite !bind_assoc. apply bind_ext. intros cA w4.
    rewrite !bind_assoc. reflexivity.
Qed.

(** ** [shOpt] and [shAction] *)

Section ShOptProperties.
Context {V : Type}.
Variable String_ : V -> string.

(** X11. A tag function of [shOpt] attempts, in this order, the spawn of
    the shell with the configured shell arguments followed by the compiled
    template, the write of the standard input if there is one, the close of
    the input stream and the collection of the output.  It stops at the first
    of them that the host refuses and throws the host's error; when none is
    refused it returns a result that names the compiled command in [cmd] and
    says in [trimmed] whether trimming was on. *)
Theorem shOpt_runs_compiled (h : Host) (opt : ShellOptions) (t : Template V)
  (w : Proc) :
  let command := Words.compile String_ (first_piece t) (gaps t) in
  let ops :=
    Spawn (nullish (shell opt) "/bin/bash")
      (nullish (shellArgs opt) ["-c"] ++ [command])%list
      (nullish (env opt) (host_env h))
    :: match stdin opt with
       | Some payload => [StdinWrite (stdin_bytes h payload)]
       | None => []
       end ++ [StdinClose; Output] in
  exists k,
    k < List.length ops
    /\ (forall i, i < k ->
        refuses h (w ++ firstn i ops)%list (nth i ops Output) = None)
    /\ fst (call (shOpt String_ h opt) t w) = (w ++ firstn (S k) ops)%list
    /\ match refuses h (w ++ firstn k ops)%list (nth k ops Output) with
       | Some e => snd (call (shOpt String_ h opt) t w) = Throw e
       | None =>
           S k = List.length ops
           /\ exists r,
                snd (call (shOpt String_ h opt) t w) = Return r
                /\ cmd r = command
                /\ trimmed r = nullish (trim opt) true
       end.
Proof.
  intros command ops.
  destruct (execOpt_stdin_order h opt command w) as (k & Hk & Hno & Hfst & Hsnd).
  fold ops in Hk, Hno, Hfst, Hsnd.
  exists k. split; [exact Hk|]. split; [exact Hno|].
  unfold shOpt, plain. cbn [call wrapTagFunction].
  rewrite quote_template_compile. fold command.
  rewrite bind_ret_l. unfold bind.
  destruct (execOpt h opt command w) as [w' [r|e]]; cbn [fst snd] in *.
  - split; [exact Hfst|].
    destruct (refuses h _ _); [discriminate Hsnd|].
    destruct Hsnd as (Hl & r' & Er & Ec). injection Er as <-.
    split; [exact Hl|]. eexists. split; [reflexivity|].
    split; [exact Ec | reflexivity].
  - split; [exact Hfst|].
    destruct (refuses h _ _); [now injection Hsnd as ->|].
    destruct Hsnd as (_ & r' & Er & _). discriminate Er.
Qed.

(** X12. [shAction] does to the subprocess what [sh] does; it returns the
    result of [sh] when the exit code is zero and throws a [ShellError] that
    carries that result otherwise. *)
Theorem shAction_outcome (h : Host) (t : Template V) (w : Proc) :
  call (shAction String_ h) t w
  = (fst (call (sh String_ h) t w),
     match snd (call (sh String_ h) t w) with
     | Return result =>
         if Z.eqb (code result) 0 then Return result
         else Throw (ShellError result)
     | Throw e => Throw e
     end).
Proof.
  unfold shAction, sh, shOpt, plain, map.
  cbn [call exec_of finalizers_of wrapTagFunction post_only pre post finalize
         apply_pre call_optional run_finalizers].
  rewrite quote_template_compile.
  unfold try_finally, bind, ret, throw.
  destruct (execOpt h _ _ w) as [w' [r|e]]; cbn [fst snd]; [|reflexivity].
  cbn [binaryToText code]. destruct (Z.eqb _ 0); reflexivity.
Qed.

End ShOptProperties.

(** ** What an action writes *)

Section ActionReport.
Context {T : Type}.
Variables (dc : Config) (label : string) (f : Work T).

(** X13. The [verbosity] setting has no effect: both of its values are
    non-empty strings, and [action] only asks whether the string is truthy.
    A quiet action writes what a verbose one writes. *)
Theorem action_verbosity_ignored (v : option Verbosity) (c : Config)
  (w : World) :
  action dc label f (Some (Report.with_verbosity v c)) w
  = action dc label f (Some c) w.
Proof.
  unfold action. rewrite !truthy_verbosity. reflexivity.
Qed.

(** X14. An action writes its label line and then the report of exactly
    what its caller gets: OK for a value, SKIPPED for [undefined], TIMEOUT for
    a [TimeoutError] (the work's own included), ERROR for any other error,
    followed by the formatted result when the error is a [ShellError]. *)
Theorem action_console (config : option Config) (w : World) :
  console (fst (action dc label f config w))
  = (console w
     ++ LabelLine label
        :: Report.lines (or_else (setting colors config dc) true)
             (setting formatOptions config dc)
             (snd (action dc label f config w)))%list.
Proof.
  unfold action. rewrite truthy_verbosity.
  destruct (f None) as [e|p].
  - destruct e; cbn; rewrite <- ?app_assoc; reflexivity.
  - unfold timeoutPromise. cbn [setTimeout].
    destruct (race p _) as [[v|e]|]; cbn.
    + rewrite <- app_assoc. reflexivity.
    + destruct e; cbn; rewrite <- ?app_assoc; reflexivity.
    + rewrite <- app_assoc. reflexivity.
Qed.

(** X15. [timeoutPromise] arms one timer, with the next identifier and a
    delay of a thousand times the seconds.  When it returns, the timer is
    armed no more and the cookie is empty; when it throws (the work rejected
    first), the timer is still armed and the cookie holds it. *)
Theorem timeoutPromise_cookie (tc : TimeoutCookie) (p : Promise T)
  (seconds : Q) (w : World) :
  Words.fresh_timers w ->
  match timeoutPromise tc p seconds w with
  | (w', tc', Return _) => tc' = None /\ armed w' = armed w
  | (w', tc', Throw _) =>
      tc' = Some (next_timer w)
      /\ armed w' = (armed w ++ [(next_timer w, (seconds * (1000 # 1))%Q)])%list
  end.
Proof.
  unfold Words.fresh_timers, timeoutPromise. intros Hw. cbn [setTimeout].
  destruct (race p _) as [[v|e]|]; cbn.
  - split; [reflexivity|]. now apply disarm_fresh.
  - split; reflexivity.
  - split; [reflexivity|].
    rewrite disarm_fresh by exact Hw. now apply filter_fresh.
Qed.

End ActionReport.

Lemma timeoutPromise_cookie_witness :
  Words.fresh_timers SampleAction.world0
  /\ match timeoutPromise None
             (Settles (2000 # 1)%Q (Rejected (T := unit) SkipError))
             (120 # 1)%Q SampleAction.world0 with
     | (w', tc', Return _) => tc' = None /\ armed w' = armed SampleAction.world0
     | (w', tc', Throw _) =>
         tc' = Some (next_timer SampleAction.world0)
         /\ armed w'
            = (armed SampleAction.world0
               ++ [(next_timer SampleAction.world0,
                    ((120 # 1) * (1000 # 1))%Q)])%list
     end.
Proof.
  split; [constructor|].
  apply (timeoutPromise_cookie None
           (Settles (2000 # 1)%Q (Rejected (T := unit) SkipError))
           (120 # 1)%Q SampleAction.world0).
  constructor.
Defined.

(** ** print.ts *)

Import Print.

Lemma makeControlCharactersVisible_map (v : ustring) :
  makeControlCharactersVisible v = List.map visible_unit v.
Proof.
  unfold makeControlCharactersVisible, replace_all. rewrite !map_map.
  apply map_ext. intros u. unfold visible_unit.
  destruct (N.eqb_spec u LF) as [->|H1]; [reflexivity|].
  destruct (N.eqb_spec u TAB) as [->|H2]; [reflexivity|].
  destruct (N.eqb_spec u CR) as [->|H3]; reflexivity.
Qed.

Lemma visible_unit_clean (u : N) :
  visible_unit u <> LF /\ visible_unit u <> TAB /\ visible_unit u <> CR.
Proof.
  unfold visible_unit.
  destruct (N.eqb_spec u LF) as [->|H1]; [repeat split; discriminate|].
  destruct (N.eqb_spec u TAB) as [->|H2]; [repeat split; discriminate|].
  destruct (N.eqb_spec u CR) as [->|H3]; [repeat split; discriminate|].
  auto.
Qed.

Lemma visible_unit_fixed (u : N) :
  u <> LF -> u <> TAB -> u <> CR -> visible_unit u = u.
Proof.
  intros H1 H2 H3. unfold visible_unit.
  destruct (N.eqb_spec u LF); [contradiction|].
  destruct (N.eqb_spec u TAB); [contradiction|].
  destruct (N.eqb_spec u CR); [contradiction|reflexivity].
Qed.

(** X16. [makeControlCharactersVisible] keeps the length of a text, leaves
    no line feed, tabulation or carriage return in it, and changes nothing
    when applied a second time. *)
Theorem makeControlCharactersVisible_clean (v : ustring) :
  List.length (makeControlCharactersVisible v) = List.length v
  /\ Forall (fun u => u <> LF /\ u <> TAB /\ u <> CR)
       (makeControlCharactersVisible v)
  /\ makeControlCharactersVisible (makeControlCharactersVisible v)
     = makeControlCharactersVisible v.
Proof.
  rewrite !makeControlCharactersVisible_map. repeat split.
  - apply length_map.
  - apply Forall_map. apply Forall_forall. intros u _.
    apply visible_unit_clean.
  - rewrite map_map. apply map_ext. intros u.
    destruct (visible_unit_clean u) as (H1 & H2 & H3).
    now apply visible_unit_fixed.
Qed.



Lemma binaryToString_nothing (rd : Render) (b : list Byte.byte) :
  binaryToString rd b (Some 0) = [].
Proof.
  unfold binaryToString. destruct (Nat.eqb (List.length b) 0); reflexivity.
Qed.

(** X18. Options that keep the outputs out of a report make it read as if
    the result had no output at all: a success without [verbose], a failure
    with [suppressOutput], a binary result with [maxBytes] zero or less. *)
Theorem formatShellResult_silenced (rd : Render) (result : AnyResult)
  (opts : option FormatOptions) :
  silenced result opts = true ->
  formatShellResult rd result opts
  = formatShellResult rd (without_output result) opts.
Proof.
  unfold silenced, formatShellResult. intros H.
  assert (Ecode : code_of (without_output result) = code_of result)
    by (destruct result; reflexivity).
  assert (Ecmd : cmd_of (without_output result) = cmd_of result)
    by (destruct result; reflexivity).
  assert (Eel : elapsed_of (without_output result) = elapsed_of result)
    by (destruct result; reflexivity).
  rewrite Ecode, Ecmd, Eel.
  destruct (Z.eqb (code_of result) 0) eqn:Hc;
    destruct (truthy_flag (opt opts verbose)) eqn:Hv;
    destruct (truthy_flag (opt opts suppressOutput)) eqn:Hs;
    cbn [andb orb negb] in H |- *; try reflexivity;
    destruct result as [t|b]; try discriminate H;
    unfold maxBytes_of in *;
    destruct (opt opts maxBytes) as [[n|]|]; try discriminate H;
    apply Z.leb_le in H;
    replace (Z.to_nat (Z.max 0 n)) with 0 by lia;
    cbn [stdout_of stderr_of without_output bin_stdout bin_stderr outputToString];
    rewrite !binaryToString_nothing; reflexivity.
Qed.

Lemma formatShellResult_silenced_witness :
  silenced SamplePrint.listing None = true
  /\ formatShellResult SamplePrint.render SamplePrint.listing None
     = formatShellResult SamplePrint.render
         (without_output SamplePrint.listing) None.
Proof.
  split; [reflexivity|].
  apply (formatShellResult_silenced SamplePrint.render SamplePrint.listing None).
  reflexivity.
Defined.














